(** * Code-intelligence artifact tooling: orchestrator and bundle-manager client

    A shallow embedding of three Go sources of the repository:

    - the indexing/upload orchestrator ([ensureCloned], [index], [upload],
      [parallelForRepo], [ensureIndexed], [ensureAllUploaded]),
    - the bundle-manager HTTP client ([makeURL], [do], [SendUpload],
      [GetUpload], [SendDB], [queryBundle]),
    - the observability decorator ([ObservedClient]).

    Go [error] values are [option error] ([None] is [nil]); stateful code is
    written in explicit state-passing style over a [World]; the collaborators
    outside the program (the operating system, subprocesses, the HTTP
    server, the Go standard library) are Section variables. *)

From stdpp Require Import base strings list gmap sorting pretty relations.
From Stdlib Require Import ZArith Ascii.

Set Default Proof Using "Type".

Local Open Scope string_scope.
Local Open Scope Z_scope.
Local Open Scope list_scope.

(** ** Go errors *)

Inductive Errno := ENOENT | EACCES | ENOTDIR | EIO | ENOSPC.

Inductive error :=
| ErrorString (msg : string)                 (* fmt.Errorf, errors.New *)
| PathError (op path : string) (e : Errno)   (* *os.PathError *)
| ExitError (code : Z)                       (* *exec.ExitError *)
| WithMessage (msg : string) (cause : error) (* errors.Wrap *).

#[global] Instance Errno_eq_dec : EqDecision Errno.
Proof. solve_decision. Defined.

#[global] Instance error_eq_dec : EqDecision error.
Proof. solve_decision. Defined.

(** [err == nil] *)
Definition is_nil (err : option error) : bool :=
  match err with None => true | Some _ => false end.

(** [os.IsNotExist]: true exactly on a path error whose cause is ENOENT;
    false on [nil] and it does not look through [errors.Wrap]. *)
Definition os_IsNotExist (err : option error) : bool :=
  match err with
  | Some (PathError _ _ ENOENT) => true
  | _ => false
  end.

Definition newline : string := String (Ascii.ascii_of_nat 10) EmptyString.

(** [strings.Join] *)
Fixpoint strings_Join (elems : list string) (sep : string) : string :=
  match elems with
  | [] => EmptyString
  | [x] => x
  | x :: rest => x +:+ sep +:+ strings_Join rest sep
  end.

(** ** Go paths ([path/filepath], with the separator of Unix) *)

(** The elements of a path: what lies between its separators. *)
Fixpoint split_path (path : string) : list string :=
  match path with
  | EmptyString => [EmptyString]
  | String c rest =>
      if bool_decide (c = "/"%char) then EmptyString :: split_path rest
      else match split_path rest with
           | x :: xs => String c x :: xs
           | [] => [String c EmptyString]
           end
  end.

(** [filepath.IsAbs] *)
Definition filepath_IsAbs (path : string) : bool := String.prefix "/" path.

(** One element in the loop of [Clean].  [out] holds the elements written
    so far, the last one first: an empty element and [.] are dropped;
    [..] removes the element before it if there is one to remove, is
    dropped at the root, and is kept at the front of a relative path; any
    other element is written. *)
Definition clean_step (rooted : bool) (out : list string) (x : string) : list string :=
  if decide (x = EmptyString ∨ x = ".") then out
  else if decide (x = "..") then
    match out with
    | y :: out' => if decide (y = "..") then x :: out else out'
    | [] => if rooted then [] else [x]
    end
  else x :: out.

(** [filepath.Clean]: the shortest path that names the same file by purely
    lexical processing; the empty path becomes [.]. *)
Definition filepath_Clean (path : string) : string :=
  let rooted := filepath_IsAbs path in
  let out := reverse (foldl (clean_step rooted) [] (split_path path)) in
  let cleaned := (if rooted then "/" else EmptyString) +:+ strings_Join out "/" in
  if decide (cleaned = EmptyString) then "." else cleaned.

(** [filepath.Join]: leading empty elements are ignored, the others are
    joined by the separator, and the result is cleaned. *)
Fixpoint filepath_Join (elem : list string) : string :=
  match elem with
  | [] => EmptyString
  | e :: rest =>
      if decide (e = EmptyString) then filepath_Join rest
      else filepath_Clean (strings_Join elem "/")
  end.

(** [filepath.Base]: the last element of the path, trailing separators
    removed first; [.] for the empty path, the separator for a path of
    separators only. *)
Definition filepath_Base (path : string) : string :=
  if decide (path = EmptyString) then "."
  else default "/" (last (filter (λ x, x ≠ EmptyString) (split_path path))).

(** ** The fan-out / fan-in pattern

    [parallelForRepo], [ensureIndexed] and [ensureAllUploaded] share one
    shape: a channel [errs] buffered to the number of units, one goroutine
    per unit that sends its result and then calls [wg.Done], [wg.Wait],
    [close(errs)], and a loop over the channel that returns the first
    non-nil error.  The goroutines interleave, so the pattern is a step
    relation on the state of the pool; a unit of work is a relation between
    the world before, the world after and its result, and it takes effect
    at the moment the unit sends its result. *)

Module FanOut.

(** [for err := range errs { if err != nil { return err } }; return nil] *)
Fixpoint drain (errs : list (option error)) : option error :=
  match errs with
  | [] => None
  | Some err :: _ => Some err
  | None :: rest => drain rest
  end.

Section Pool.

Context {U W : Type}.

Variable task : U → W → W → option error → Prop.

(** Where the calling goroutine stands: in the spawning loop, blocked in
    [wg.Wait], or returned. *)
Inductive Main :=
| Spawning (todo : list U)
| Waiting
| Done (r : option error).

Record Pool := {
  main : Main;
  running : list U;              (* goroutines that have not sent yet *)
  wg : nat;                      (* the WaitGroup counter *)
  errs : list (option error);    (* the content of the channel, oldest first *)
  cap : nat;                     (* the capacity of the channel *)
  world : W
}.

Definition init (capacity : nat) (units : list U) (w : W) : Pool :=
  {| main := Spawning units; running := []; wg := 0; errs := [];
     cap := capacity; world := w |}.

Inductive step : Pool → Pool → Prop :=
| step_spawn s u todo :
    (* wg.Add(1); go func(u) {...}(u) *)
    main s = Spawning (u :: todo) →
    step s {| main := Spawning todo; running := running s ++ [u]; wg := S (wg s);
              errs := errs s; cap := cap s; world := world s |}
| step_spawned s :
    (* the loop is over: the caller reaches wg.Wait() *)
    main s = Spawning [] →
    step s {| main := Waiting; running := running s; wg := wg s;
              errs := errs s; cap := cap s; world := world s |}
| step_task s before u after w' r :
    (* errs <- f(u), then the deferred wg.Done(); the send needs room *)
    running s = before ++ u :: after →
    task u (world s) w' r →
    (length (errs s) < cap s)%nat →
    step s {| main := main s; running := before ++ after; wg := pred (wg s);
              errs := errs s ++ [r]; cap := cap s; world := w' |}
| step_join s :
    (* wg.Wait() returns, close(errs), the channel is drained *)
    main s = Waiting →
    wg s = 0%nat →
    step s {| main := Done (drain (errs s)); running := running s; wg := wg s;
              errs := errs s; cap := cap s; world := world s |}.

(** The units run one after the other, in the given order. *)
Inductive seq_run : list U → W → W → list (option error) → Prop :=
| seq_run_nil w : seq_run [] w w []
| seq_run_cons u us w w1 w2 r rs :
    task u w w1 r → seq_run us w1 w2 rs → seq_run (u :: us) w w2 (r :: rs).

(** The fan-out as a whole: started in [w], it can return [r] in [w']. *)
Definition fanout (capacity : nat) (units : list U) (w w' : W) (r : option error) : Prop :=
  ∃ s, rtc step (init capacity units w) s ∧ main s = Done r ∧ world s = w'.

(** Unit [u] ran from [w1] to [w2] with result [r0] in a run of [units]
    from [w] to [w']: some of the other units finished before it, the rest
    after it. *)
Definition ran_in (units : list U) (w w' : W) (u : U) (w1 w2 : W) (r0 : option error)
  : Prop :=
  ∃ before after rs1 rs2,
    before ++ u :: after ≡ₚ units ∧
    seq_run before w w1 rs1 ∧ task u w1 w2 r0 ∧ seq_run after w2 w' rs2.

Definition todo_of (m : Main) : list U :=
  match m with Spawning todo => todo | _ => [] end.

(** What holds of every state the pool can reach. *)
Record pool_inv (capacity : nat) (units : list U) (w0 : W) (s : Pool) : Prop := {
  inv_order : ∃ finished,
      seq_run finished w0 (world s) (errs s) ∧
      finished ++ running s ++ todo_of (main s) ≡ₚ units;
  inv_wg : wg s = length (running s);
  inv_cap : cap s = capacity;
  inv_done : ∀ r, main s = Done r → running s = [] ∧ r = drain (errs s)
}.

(** Steps left before the caller returns. *)
Definition fuel (s : Pool) : nat :=
  match main s with
  | Spawning todo => 2 * length todo + length (running s) + 3
  | Waiting => length (running s) + 2
  | Done _ => length (running s)
  end.

End Pool.

(** A run of two units in which the second unit fails and finishes first. *)
Definition sample_task (u : nat) (w w' : list nat) (r : option error) : Prop :=
  w' = w ++ [u] ∧
  r = if decide (u = 2%nat) then Some (ErrorString "unit 2 failed") else None.

Definition sample_final : Pool (U := nat) (W := list nat) :=
  {| main := Done (Some (ErrorString "unit 2 failed")); running := []; wg := 0;
     errs := [Some (ErrorString "unit 2 failed"); None]; cap := 2;
     world := [2; 1]%nat |}.

End FanOut.

(** ** The orchestrator *)

Module Orchestrator.

Record Repo := { owner : string; name : string; revs : list string }.

#[global] Instance Repo_eq_dec : EqDecision Repo.
Proof. solve_decision. Defined.

Definition repos : list Repo :=
  [ {| owner := "uber-go"; name := "zap";
       revs := [ "a6015e13fab9b744d96085308ce4e8f11bad1996";
                 "2aa9fa25da83bdfff756c36a91442edc9a84576c" ] |};
    {| owner := "influxdata"; name := "influxdb";
       revs := [ "369186d339389cfd79ab3e303687521d640c0ba2";
                 "0f09f4d2ab27fbef88cb49d890d9bec6ee6ca675";
                 "7be7328c3bd307f779c69c809b24d30808f72b12" ] |};
    {| owner := "distributedio"; name := "titan";
       revs := [ "0ad2e75d529bda74472a1dbb5e488ec095b07fe7";
                 "33623cc32f8d9f999fd69189d29124d4368c20ab";
                 "aef232fbec9089d4468ff06705a3a7f84ee50ea6" ] |};
    {| owner := "etcd-io"; name := "etcd";
       revs := [ "dfb0a405096af39e694a501de5b0a46962b3050e";
                 "1044a8b07c56f3d32a1f3fe91c8ec849a8b17b5e";
                 "fb77f9b1d56391318823c434f586ffe371750321" ] |};
    {| owner := "pingcap"; name := "tidb";
       revs := [ "b4f42abc36d893ec3f443af78fc62705a2e54236";
                 "43764a59b7dcb846dc1e9754e8f125818c69a96f";
                 "2f9a487ebbd2f1a46b5f2c2262ae8f0ef4c4d42f" ] |} ].

(** The file system as the program observes it: the paths that exist, the
    paths on which [stat] fails for a reason other than absence, and the
    working directory ([Getwd] may fail). *)
Record FileSys := {
  entries : gset string;
  stat_faults : gmap string Errno;
  cwd : string + error
}.

(** What the program does to the outside, in order. *)
Inductive Event :=
| EvPrintf (line : string)
| EvExec (dir command : string) (args : list string)
| EvTempDir (path : string)
| EvRemoveAll (path : string).

#[global] Instance Event_eq_dec : EqDecision Event.
Proof. solve_decision. Defined.

Record World := { disk : FileSys; log : list Event }.

Definition emit (e : Event) (w : World) : World :=
  {| disk := disk w; log := log w ++ [e] |}.

(** [os.Stat], reduced to its error. *)
Definition os_Stat (d : FileSys) (path : string) : option error :=
  match stat_faults d !! path with
  | Some e => Some (PathError "stat" path e)
  | None =>
      if decide (path ∈ entries d) then None
      else Some (PathError "stat" path ENOENT)
  end.

(** [filepath.Abs]: an absolute path is cleaned; a relative one is joined
    to the working directory, which [Getwd] may fail to give. *)
Definition filepath_Abs (d : FileSys) (path : string) : string + error :=
  if filepath_IsAbs path then inl (filepath_Clean path)
  else
    match cwd d with
    | inl dir => inl (filepath_Join [dir; path])
    | inr err => inr err
    end.

(** [p] is [root] or lies below it. *)
Definition is_under (root p : string) : bool :=
  bool_decide (p = root) || String.prefix (root +:+ "/") p.

(** [os.RemoveAll]: the path and everything below it are gone. *)
Definition os_RemoveAll (path : string) (w : World) : World :=
  emit (EvRemoveAll path)
    {| disk := {| entries := filter (λ p, is_under path p = false) (entries (disk w));
                  stat_faults := stat_faults (disk w);
                  cwd := cwd (disk w) |};
       log := log w |}.

Definition Printf (line : string) (w : World) : World := emit (EvPrintf line) w.

Section Environment.

(** [cmd.CombinedOutput] of a subprocess started in [dir]: what it does to
    the file system, its combined output and its error. *)
Variable CombinedOutput :
  string → string → list string → FileSys → FileSys * (string * option error).

(** The directory name [ioutil.TempDir] picks, or its error. *)
Variable TempDir_pick : FileSys → string + error.

Definition runCommand (dir command : string) (args : list string) (w : World)
  : World * option error :=
  let w := emit (EvExec dir command args) w in
  let '(d, (output, err)) := CombinedOutput dir command args (disk w) in
  let w := {| disk := d; log := log w |} in
  match err with
  | Some e =>
      (w, Some (WithMessage
                  ("error running '" +:+ strings_Join (command :: args) " " +:+ "':"
                   +:+ newline +:+ output +:+ newline) e))
  | None => (w, None)
  end.

(** [ioutil.TempDir(".", "")]: on success the new directory exists. *)
Definition ioutil_TempDir (w : World) : World * (string + error) :=
  match TempDir_pick (disk w) with
  | inl path =>
      (emit (EvTempDir path)
         {| disk := {| entries := {[ path ]} ∪ entries (disk w);
                       stat_faults := stat_faults (disk w);
                       cwd := cwd (disk w) |};
            log := log w |},
       inl path)
  | inr err => (w, inr err)
  end.

Definition cloneURL (repo : Repo) : string :=
  "https://github.com/" +:+ owner repo +:+ "/" +:+ name repo +:+ ".git".

Definition ensureCloned (repo : Repo) (w : World) : World * option error :=
  let err := os_Stat (disk w) (filepath_Join ["repos"; name repo]) in
  if is_nil err || negb (os_IsNotExist err) then (w, err)
  else
    let w := Printf ("Cloning " +:+ owner repo +:+ "/" +:+ name repo +:+ newline) w in
    runCommand "repos" "git" ["clone"; cloneURL repo] w.

(** The loop [for _, command := range commands] with its early return. *)
Fixpoint run_commands (commands : list (World → World * option error)) (w : World)
  : World * option error :=
  match commands with
  | [] => (w, None)
  | command :: rest =>
      match command w with
      | (w, Some err) => (w, Some err)
      | (w, None) => run_commands rest w
      end
  end.

Definition indexFileName (name rev : string) : string :=
  filepath_Join ["indexes"; name +:+ "." +:+ rev +:+ ".dump"].

(** The four steps of an index task, as the closures of [commands]. *)
Definition index_commands (name rev tempDir indexFile : string)
  : list (World → World * option error) :=
  let sourceDir := filepath_Join ["repos"; name] in
  let targetDir := filepath_Join [tempDir; name] in
  [ runCommand EmptyString "cp" ["-r"; sourceDir; tempDir];
    runCommand targetDir "git" ["checkout"; rev];
    runCommand targetDir "go" ["mod"; "vendor"];
    runCommand targetDir "lsif-go" ["-o"; indexFile] ].

Definition index (owner name rev : string) (w : World) : World * option error :=
  match filepath_Abs (disk w) (indexFileName name rev) with
  | inr err => (w, Some err)
  | inl indexFile =>
      let err := os_Stat (disk w) indexFile in
      if is_nil err || negb (os_IsNotExist err) then (w, err)
      else
        match ioutil_TempDir w with
        | (w, inr err) => (w, Some err)
        | (w, inl tempDir) =>
            (* defer os.RemoveAll(tempDir) *)
            let deferred := os_RemoveAll tempDir in
            let w := Printf ("Indexing " +:+ owner +:+ "/" +:+ name +:+ " at "
                             +:+ rev +:+ newline) w in
            let '(w, err) := run_commands (index_commands name rev tempDir indexFile) w in
            (deferred w, err)
        end
  end.

Definition upload (owner name rev : string) (w : World) : World * option error :=
  let w := Printf ("Uploading " +:+ owner +:+ "/" +:+ name +:+ " at " +:+ rev +:+ newline) w in
  match runCommand "indexes" "src"
          [ "-endpoint=http://localhost:3080"; "lsif"; "upload"; "-root=/";
            "-repo=" +:+ ("github.com/" +:+ owner +:+ "/" +:+ name);
            "-commit=" +:+ rev;
            "-file=" +:+ filepath_Join [name +:+ "." +:+ rev +:+ ".dump"] ] w with
  | (w, Some err) => (w, Some err)
  | (w, None) => (w, None)
  end.

(** A sequential task, seen as a unit of work of a fan-out. *)
Definition lift (f : World → World * option error) (w w' : World) (r : option error) : Prop :=
  f w = (w', r).

Definition parallelForRepo (f : Repo → World → World → option error → Prop)
  : World → World → option error → Prop :=
  FanOut.fanout f (length repos) repos.

Definition ensureAllCloned : World → World → option error → Prop :=
  parallelForRepo (λ repo, lift (ensureCloned repo)).

Definition ensureIndexed (repo : Repo) : World → World → option error → Prop :=
  FanOut.fanout (λ rev, lift (index (owner repo) (name repo) rev))
    (length (revs repo)) (revs repo).

Definition ensureAllIndexed : World → World → option error → Prop :=
  parallelForRepo ensureIndexed.

(** [total += len(repo.revs)] over the corpus. *)
Definition total_revs (rs : list Repo) : nat :=
  foldl (λ total repo, (total + length (revs repo))%nat) 0%nat rs.

(** The (repository, revision) pairs, in the order the nested loops of
    [ensureAllUploaded] spawn them. *)
Definition all_revs (rs : list Repo) : list (Repo * string) :=
  flat_map (λ repo, map (pair repo) (revs repo)) rs.

Definition ensureAllUploaded : World → World → option error → Prop :=
  FanOut.fanout (λ p : Repo * string, lift (upload (owner p.1) (name p.1) p.2))
    (total_revs repos) (all_revs repos).

(** [for _, phase := range phases] of [mainErr], with its early return. *)
Fixpoint run_phases (phases : list (World → World → option error → Prop))
    (w w' : World) (r : option error) : Prop :=
  match phases with
  | [] => w' = w ∧ r = None
  | phase :: rest =>
      ∃ w1 r1, phase w w1 r1 ∧
        match r1 with
        | Some err => w' = w1 ∧ r = Some err
        | None => run_phases rest w1 w' r
        end
  end.

Definition phases : list (World → World → option error → Prop) :=
  [ensureAllCloned; ensureAllIndexed; ensureAllUploaded].

(** The error of [os.MkdirAll], if any. *)
Variable MkdirAll_err : FileSys → string → option error.

Definition os_MkdirAll (path : string) (w : World) : World * option error :=
  match MkdirAll_err (disk w) path with
  | Some err => (w, Some err)
  | None =>
      ({| disk := {| entries := {[ path ]} ∪ entries (disk w);
                     stat_faults := stat_faults (disk w);
                     cwd := cwd (disk w) |};
          log := log w |},
       None)
  end.

Definition mainErr (w w' : World) (r : option error) : Prop :=
  match os_MkdirAll "repos" w with
  | (w1, Some err) => w' = w1 ∧ r = Some err
  | (w1, None) =>
      match os_MkdirAll "indexes" w1 with
      | (w2, Some err) => w' = w2 ∧ r = Some err
      | (w2, None) => run_phases phases w2 w' r
      end
  end.


End Environment.

(** *** The vocabulary of the properties *)

(** The tasks of the given units run one after the other. *)
Fixpoint run_in_order {U : Type} (f : U → World → World * option error)
    (order : list U) (w : World) : World * list (option error) :=
  match order with
  | [] => (w, [])
  | u :: rest =>
      let '(w1, r) := f u w in
      let '(w2, rs) := run_in_order f rest w1 in
      (w2, r :: rs)
  end.

(** The directory of [repo] is there: [stat] succeeds. *)
Definition dir_exists (w : World) (repo : Repo) : Prop :=
  os_Stat (disk w) (filepath_Join ["repos"; name repo]) = None.

(** The directory of [repo] is not there: [stat] reports that. *)
Definition dir_missing (w : World) (repo : Repo) : Prop :=
  os_IsNotExist (os_Stat (disk w) (filepath_Join ["repos"; name repo])) = true.

(** A clone attempt for [repo]: [git clone], run in the directory of the
    clones, from the remote of the repository on GitHub. *)
Definition clone_exec (repo : Repo) : Event :=
  EvExec "repos" "git"
    ["clone"; "https://github.com/" +:+ owner repo +:+ "/" +:+ name repo +:+ ".git"].

(** What a clone attempt for [repo] leaves in the log. *)
Definition clone_events (repo : Repo) : list Event :=
  [ EvPrintf ("Cloning " +:+ owner repo +:+ "/" +:+ name repo +:+ newline);
    clone_exec repo ].

(** The number of clone attempts for [repo] among some events. *)
Definition clone_attempts (repo : Repo) (evs : list Event) : nat :=
  length (filter (λ e, e = clone_exec repo) evs).

(** What the four steps of an index task leave in the log. *)
Definition index_steps (name rev tempDir indexFile : string) : list Event :=
  [ EvExec EmptyString "cp" ["-r"; filepath_Join ["repos"; name]; tempDir];
    EvExec (filepath_Join [tempDir; name]) "git" ["checkout"; rev];
    EvExec (filepath_Join [tempDir; name]) "go" ["mod"; "vendor"];
    EvExec (filepath_Join [tempDir; name]) "lsif-go" ["-o"; indexFile] ].

Definition exec_event (c : string * string * list string) : Event :=
  EvExec c.1.1 c.1.2 c.2.

(** The file system an index task works in once its workspace is made. *)
Definition with_workspace (tempDir : string) (d : FileSys) : FileSys :=
  {| entries := {[ tempDir ]} ∪ entries d; stat_faults := stat_faults d; cwd := cwd d |}.

(** How many of the four steps run, given whether the first three
    succeed: a step runs only when every step before it has succeeded. *)
Definition steps_until (ok1 ok2 ok3 : bool) : nat :=
  if ok1 then if ok2 then if ok3 then 4 else 3 else 2 else 1.

(** *** A sample environment

    The copy step creates the tree below the workspace, the indexer fails,
    every other subprocess succeeds and changes nothing.  On disk: zap is
    cloned, the directory of etcd cannot be inspected, one artifact of zap
    is there and another cannot be inspected. *)

Definition sample_CombinedOutput (dir command : string) (args : list string)
    (d : FileSys) : FileSys * (string * option error) :=
  if decide (command = "lsif-go") then
    (d, ("lsif-go: could not load packages", Some (ExitError 1)))
  else if decide (command = "cp") then
    ({| entries := {[ filepath_Join [default EmptyString (last args); "zap"] ]} ∪ entries d;
        stat_faults := stat_faults d; cwd := cwd d |},
     (EmptyString, None))
  else (d, (EmptyString, None)).

Definition sample_TempDir_pick (d : FileSys) : string + error := inl "078943215".

(** Two more environments: one in which every [git] subprocess fails, and
    one in which no temporary directory can be made. *)
Definition failing_git_CombinedOutput (dir command : string) (args : list string)
    (d : FileSys) : FileSys * (string * option error) :=
  if decide (command = "git") then
    (d, ("error: pathspec did not match any file(s) known to git", Some (ExitError 1)))
  else (d, (EmptyString, None)).

Definition failing_TempDir_pick (d : FileSys) : string + error :=
  inr (PathError "mkdir" "078943215" EACCES).

Definition zap : Repo :=
  {| owner := "uber-go"; name := "zap";
     revs := [ "a6015e13fab9b744d96085308ce4e8f11bad1996";
               "2aa9fa25da83bdfff756c36a91442edc9a84576c" ] |}.

Definition etcd : Repo :=
  {| owner := "etcd-io"; name := "etcd";
     revs := [ "dfb0a405096af39e694a501de5b0a46962b3050e";
               "1044a8b07c56f3d32a1f3fe91c8ec849a8b17b5e";
               "fb77f9b1d56391318823c434f586ffe371750321" ] |}.

Definition sample_world : World :=
  {| disk :=
       {| entries := {[ "repos/zap"; "/work/indexes/zap.r1.dump" ]};
          stat_faults := {[ "repos/etcd" := EACCES;
                            "/work/indexes/zap.r3.dump" := EACCES ]};
          cwd := inl "/work" |};
     log := [] |}.

End Orchestrator.

(** ** The bundle-manager client *)

Module Client.

Definition bytes := string.

(** [err.Error()] *)
Definition Errno_msg (e : Errno) : string :=
  match e with
  | ENOENT => "no such file or directory"
  | EACCES => "permission denied"
  | ENOTDIR => "not a directory"
  | EIO => "input/output error"
  | ENOSPC => "no space left on device"
  end.

Fixpoint Error (err : error) : string :=
  match err with
  | ErrorString msg => msg
  | PathError op path e => op +:+ " " +:+ path +:+ ": " +:+ Errno_msg e
  | ExitError code => "exit status " +:+ pretty code
  | WithMessage msg cause => msg +:+ ": " +:+ Error cause
  end.

(** *** [net/url]: query escaping and [Values.Encode] *)

Definition in_range (lo hi n : nat) : bool := (lo <=? n)%nat && (n <=? hi)%nat.

(** [shouldEscape(c, encodeQueryComponent)]: letters, digits and [-_.~] are
    kept; everything else is escaped. *)
Definition shouldEscape (c : ascii) : bool :=
  let n := nat_of_ascii c in
  if in_range 97 122 n || in_range 65 90 n || in_range 48 57 n then false
  else if bool_decide (n ∈ [45; 95; 46; 126]%nat) then false
  else true.

Definition upperhex (n : nat) : ascii :=
  default Ascii.zero (String.list_ascii_of_string "0123456789ABCDEF" !! n).

Fixpoint QueryEscape (s : string) : string :=
  match s with
  | EmptyString => EmptyString
  | String c rest =>
      let n := nat_of_ascii c in
      if shouldEscape c then
        if bool_decide (n = 32%nat) then String (ascii_of_nat 43) (QueryEscape rest)
        else String (ascii_of_nat 37)
               (String (upperhex (n / 16)) (String (upperhex (n mod 16)) (QueryEscape rest)))
      else String c (QueryEscape rest)
  end.

(** [url.URL], the fields the client touches and what [Parse] fills in. *)
Record URL := {
  Scheme : string;
  Host : string;
  Path : string;
  RawQuery : string;
  Fragment : string
}.

Definition with_RawQuery (u : URL) (q : string) : URL :=
  {| Scheme := Scheme u; Host := Host u; Path := Path u; RawQuery := q;
     Fragment := Fragment u |}.

(** *** Requests, responses and the world of one client call *)

Record Context := { deadline : option Z; spans : list string }.

Record Request := {
  Method : string;
  ReqURL : string;
  ReqBody : option bytes;
  Header : list (string * string);
  ReqCtx : Context
}.

Record ReadCloser := { body_id : nat; body_data : bytes }.

Record Response := { StatusCode : Z; Body : ReadCloser }.

Definition http_StatusOK : Z := 200.

Inductive Event :=
| EvStartSpan (span : string)
| EvSetTag (span key value : string)
| EvSetError (span : string)
| EvLogKV (span key value : string)
| EvFinishSpan (span : string)
| EvAcquire
| EvRelease
| EvTraceRequest
| EvTraceFinish
| EvDo (req : Request)
| EvBodyClose (id : nat)
| EvCreate (path : string)
| EvFileClose (path : string)
| EvDecode (id target : nat).

Record World := {
  files : gmap string bytes;   (* the local files and their content *)
  heap : gmap nat bytes;       (* what query targets point to *)
  trace : list Event
}.

Definition emit (e : Event) (w : World) : World :=
  {| files := files w; heap := heap w; trace := trace w ++ [e] |}.

(** Several events at once. *)
Definition emits (evs : list Event) (w : World) : World :=
  {| files := files w; heap := heap w; trace := trace w ++ evs |}.

Definition write_file (path : string) (content : bytes) (w : World) : World :=
  {| files := <[path := content]> (files w); heap := heap w; trace := trace w |}.

Definition store (target : nat) (v : bytes) (w : World) : World :=
  {| files := files w; heap := <[target := v]> (heap w); trace := trace w |}.

(** [httpcli.Doer] *)
Definition Doer := Request → Response + error.

Record clientImpl := {
  url : string;
  httpClient : Doer;
  httpLimiter : option nat;   (* [nil], or a limiter and its capacity *)
  userAgent : string
}.

(** [newClient]; [http.DefaultClient], used when the second argument is
    [nil], and [os.Args[0]] are passed in. *)
Definition newClient (default_http : Doer) (args0 : string) (url : string)
    (httpClient : option Doer) : clientImpl :=
  {| url := url;
     httpClient := default default_http httpClient;
     httpLimiter := Some 500%nat;
     userAgent := filepath_Base args0 |}.

(** One entry of [values]: the key and the rendered value, alone in a slice. *)
Definition rendered {V : Type} (fmt_v : V → string) (kv : string * V)
  : string * list string := (kv.1, [fmt_v kv.2]).

(** [range] visits every entry of a map exactly once, in some order. *)
Definition visits_all {V : Type} (range_qs : gmap string V → list (string * V)) : Prop :=
  ∀ m, range_qs m ≡ₚ map_to_list m.

Definition visits_all_keys (range_keys : gmap string (list string) → list string) : Prop :=
  ∀ m, range_keys m ≡ₚ (map_to_list m).*1.

(** The keys in the order of the map's own listing. *)
Definition listed_keys (m : gmap string (list string)) : list string :=
  (map_to_list m).*1.

Section Environment.

(** The values of a query-parameter map and their rendering by [%v]. *)
Context {V : Type}.
Variable fmt_v : V → string.

(** The order in which [range] visits a map: of the query parameters in
    [makeURL], of the keys in [Values.Encode]. *)
Variable range_qs : gmap string V → list (string * V).
Variable range_keys : gmap string (list string) → list string.

(** The standard library and the operating system.  Each is consulted at
    most once in a client call. *)
Variable url_Parse : string → URL + error.
Variable url_String : URL → string.
Variable NewRequest_check : string → string → option error.
Variable uuid_NewRandom : string + error.
Variable os_Create_err : string → option error.
Variable io_Copy_fault : string → ReadCloser → option (nat * error).
Variable file_Close_err : string → option error.
Variable json_Decode : bytes → option bytes * option error.

(** [Values.Encode]: the keys are collected, sorted, and every value is
    written as key=value, with an ampersand between the pairs. *)
Definition Values_Encode (v : gmap string (list string)) : string :=
  let keys := merge_sort String.le (range_keys v) in
  foldl (λ buf k,
           let vs := default [] (v !! k) in
           let keyEscaped := QueryEscape k in
           foldl (λ buf x,
                    (if decide (buf = EmptyString) then buf else buf +:+ "&")
                    +:+ keyEscaped +:+ "=" +:+ QueryEscape x)
                 buf vs)
        EmptyString keys.

Definition makeURL (baseURL path : string) (qs : gmap string V) : URL + error :=
  let values :=
    foldl (λ (values : gmap string (list string)) kv, <[kv.1 := [fmt_v kv.2]]> values)
          ∅ (range_qs qs) in
  match url_Parse (baseURL +:+ "/" +:+ path) with
  | inr err => inr err
  | inl u => inl (with_RawQuery u (Values_Encode values))
  end.

Definition makeBundleURL (baseURL : string) (bundleID : Z) (op : string)
    (qs : gmap string V) : URL + error :=
  makeURL baseURL ("dbs/" +:+ pretty bundleID +:+ "/" +:+ op) qs.

(** [ot.StartSpanFromContext]: the span is known by its operation name. *)
Definition StartSpanFromContext (ctx : Context) (operation : string) (w : World)
  : World * (string * Context) :=
  (emit (EvStartSpan operation) w,
   (operation, {| deadline := deadline ctx; spans := operation :: spans ctx |})).

(** The deferred function of the four operations: tag the span with the
    error, if any, and finish it. *)
Definition finish_span (span : string) (err : option error) (w : World) : World :=
  let w := match err with
           | Some e => emit (EvSetTag span "err" (Error e)) (emit (EvSetError span) w)
           | None => w
           end in
  emit (EvFinishSpan span) w.

Definition new_request (c : clientImpl) (ctx : Context) (method : string) (u : URL)
    (body : option bytes) : Request :=
  {| Method := method; ReqURL := url_String u; ReqBody := body;
     Header := [("Content-Type", "application/json"); ("User-Agent", userAgent c)];
     ReqCtx := ctx |}.

Definition do (c : clientImpl) (ctx : Context) (span method : string) (u : URL)
    (body : option bytes) (w : World) : World * (ReadCloser + error) :=
  match NewRequest_check method (url_String u) with
  | Some err => (w, inr err)
  | None =>
      let req := new_request c ctx method u body in
      let w := match httpLimiter c with
               | Some _ => emit (EvLogKV span "event" "Acquired HTTP limiter") (emit EvAcquire w)
               | None => w
               end in
      let w := emit EvTraceRequest w in
      (* defer c.httpLimiter.Release(); defer ht.Finish() *)
      let deferred w :=
        let w := emit EvTraceFinish w in
        match httpLimiter c with Some _ => emit EvRelease w | None => w end in
      let w := emit (EvDo req) w in
      match httpClient c req with
      | inr err => (deferred w, inr err)
      | inl resp =>
          if decide (StatusCode resp ≠ http_StatusOK) then
            let w := emit (EvBodyClose (body_id (Body resp))) w in
            (deferred w,
             inr (ErrorString ("unexpected status code " +:+ pretty (StatusCode resp))))
          else (deferred w, inl (Body resp))
      end
  end.

Definition openRandomFile (dir : string) (w : World) : World * (string + error) :=
  match uuid_NewRandom with
  | inr err => (w, inr err)
  | inl uuid =>
      let path := filepath_Join [dir; uuid] in
      match os_Create_err path with
      | Some err => (w, inr err)
      | None => (write_file path EmptyString (emit (EvCreate path) w), inl path)
      end
  end.

(** [io.Copy(f, body)]: all of the body reaches the file, or only its first
    bytes do and the copy reports an error. *)
Definition io_Copy (f : string) (body : ReadCloser) (w : World) : World * option error :=
  match io_Copy_fault f body with
  | Some (n, err) => (write_file f (String.substring 0 n (body_data body)) w, Some err)
  | None => (write_file f (body_data body) w, None)
  end.

Definition SendUpload (c : clientImpl) (ctx : Context) (bundleID : Z) (r : bytes)
    (w : World) : World * option error :=
  let '(w, (span, ctx)) := StartSpanFromContext ctx "client.SendUpload" w in
  let w := emit (EvSetTag span "bundleID" (pretty bundleID)) w in
  let '(w, err) :=
    match makeURL (url c) ("uploads/" +:+ pretty bundleID) ∅ with
    | inr err => (w, Some err)
    | inl u =>
        match do c ctx span "POST" u (Some r) w with
        | (w, inr err) => (w, Some err)
        | (w, inl body) => (emit (EvBodyClose (body_id body)) w, None)
        end
    end in
  (finish_span span err w, err).

Definition GetUpload (c : clientImpl) (ctx : Context) (bundleID : Z) (dir : string)
    (w : World) : World * (string * option error) :=
  let '(w, (span, ctx)) := StartSpanFromContext ctx "client.GetUpload" w in
  let w := emit (EvSetTag span "bundleID" (pretty bundleID)) w in
  let '(w, (path, err)) :=
    match makeURL (url c) ("uploads/" +:+ pretty bundleID) ∅ with
    | inr err => (w, (EmptyString, Some err))
    | inl u =>
        match do c ctx span "GET" u None w with
        | (w, inr err) => (w, (EmptyString, Some err))
        | (w, inl body) =>
            (* defer body.Close() *)
            let close_body := emit (EvBodyClose (body_id body)) in
            match openRandomFile dir w with
            | (w, inr err) => (close_body w, (EmptyString, Some err))
            | (w, inl f) =>
                (* defer func() { if closeErr := f.Close(); err == nil { err = closeErr } }() *)
                let close_file (w : World) (err : option error) :=
                  (emit (EvFileClose f) w,
                   if is_nil err then file_Close_err f else err) in
                match io_Copy f body w with
                | (w, Some err) =>
                    let '(w, err) := close_file w (Some err) in
                    (close_body w, (EmptyString, err))
                | (w, None) =>
                    let '(w, err) := close_file w None in
                    (close_body w, (f, err))
                end
            end
        end
    end in
  (finish_span span err w, (path, err)).

Definition SendDB (c : clientImpl) (ctx : Context) (bundleID : Z) (r : bytes)
    (w : World) : World * option error :=
  let '(w, (span, ctx)) := StartSpanFromContext ctx "client.SendDB" w in
  let w := emit (EvSetTag span "bundleID" (pretty bundleID)) w in
  let '(w, err) :=
    match makeURL (url c) ("dbs/" +:+ pretty bundleID) ∅ with
    | inr err => (w, Some err)
    | inl u =>
        match do c ctx span "POST" u (Some r) w with
        | (w, inr err) => (w, Some err)
        | (w, inl body) => (emit (EvBodyClose (body_id body)) w, None)
        end
    end in
  (finish_span span err w, err).

Definition queryBundle (c : clientImpl) (ctx : Context) (bundleID : Z) (op : string)
    (qs : gmap string V) (target : nat) (w : World) : World * option error :=
  let '(w, (span, ctx)) := StartSpanFromContext ctx "client.queryBundle" w in
  let w := emit (EvSetTag span "op" op) w in
  let w := emit (EvSetTag span "bundleID" (pretty bundleID)) w in
  let '(w, err) :=
    match makeBundleURL (url c) bundleID op qs with
    | inr err => (w, Some err)
    | inl u =>
        match do c ctx span "GET" u None w with
        | (w, inr err) => (w, Some err)
        | (w, inl body) =>
            (* defer body.Close() *)
            let w := emit (EvDecode (body_id body) target) w in
            let '(value, err) := json_Decode (body_data body) in
            let w := match value with Some v => store target v w | None => w end in
            (emit (EvBodyClose (body_id body)) w, err)
        end
    end in
  (finish_span span err w, err).

(** *** The vocabulary of the properties *)

(** A call of one of the four Transport operations. *)
Inductive Op :=
| OpSendUpload (r : bytes)
| OpGetUpload (dir : string)
| OpSendDB (r : bytes)
| OpQueryBundle (op : string) (qs : gmap string V) (target : nat).

Definition run_op (c : clientImpl) (ctx : Context) (bundleID : Z) (o : Op) (w : World)
  : World * (string * option error) :=
  match o with
  | OpSendUpload r => let '(w, err) := SendUpload c ctx bundleID r w in (w, (EmptyString, err))
  | OpGetUpload dir => GetUpload c ctx bundleID dir w
  | OpSendDB r => let '(w, err) := SendDB c ctx bundleID r w in (w, (EmptyString, err))
  | OpQueryBundle op qs target =>
      let '(w, err) := queryBundle c ctx bundleID op qs target w in (w, (EmptyString, err))
  end.

(** The span, the method, the request body and the URL of each operation. *)
Definition op_span (o : Op) : string :=
  match o with
  | OpSendUpload _ => "client.SendUpload"
  | OpGetUpload _ => "client.GetUpload"
  | OpSendDB _ => "client.SendDB"
  | OpQueryBundle _ _ _ => "client.queryBundle"
  end.

Definition op_method (o : Op) : string :=
  match o with
  | OpSendUpload _ | OpSendDB _ => "POST"
  | OpGetUpload _ | OpQueryBundle _ _ _ => "GET"
  end.

Definition op_body (o : Op) : option bytes :=
  match o with
  | OpSendUpload r | OpSendDB r => Some r
  | OpGetUpload _ | OpQueryBundle _ _ _ => None
  end.

Definition op_url (c : clientImpl) (bundleID : Z) (o : Op) : URL + error :=
  match o with
  | OpSendUpload _ | OpGetUpload _ => makeURL (url c) ("uploads/" +:+ pretty bundleID) ∅
  | OpSendDB _ => makeURL (url c) ("dbs/" +:+ pretty bundleID) ∅
  | OpQueryBundle op qs _ => makeBundleURL (url c) bundleID op qs
  end.

Definition op_ctx (ctx : Context) (o : Op) : Context :=
  {| deadline := deadline ctx; spans := op_span o :: spans ctx |}.

Definition op_request (c : clientImpl) (ctx : Context) (o : Op) (u : URL) : Request :=
  new_request c (op_ctx ctx o) (op_method o) u (op_body o).

(** The events of an operation up to its request. *)
Definition op_tags (bundleID : Z) (o : Op) : list Event :=
  match o with
  | OpQueryBundle op _ _ =>
      [EvSetTag (op_span o) "op" op; EvSetTag (op_span o) "bundleID" (pretty bundleID)]
  | _ => [EvSetTag (op_span o) "bundleID" (pretty bundleID)]
  end.

Definition acquire_events (c : clientImpl) (span : string) : list Event :=
  match httpLimiter c with
  | Some _ => [EvAcquire; EvLogKV span "event" "Acquired HTTP limiter"]
  | None => []
  end.

Definition release_events (c : clientImpl) : list Event :=
  match httpLimiter c with Some _ => [EvRelease] | None => [] end.

Definition status_error (resp : Response) : error :=
  ErrorString ("unexpected status code " +:+ pretty (StatusCode resp)).

(** What [GetUpload] returns once it holds the response body [body]:
    the outcome of creating the file, copying into it and closing it. *)
Definition save_outcome (dir : string) (body : ReadCloser) : string * option error :=
  match uuid_NewRandom with
  | inr err => (EmptyString, Some err)
  | inl uuid =>
      let f := filepath_Join [dir; uuid] in
      match os_Create_err f with
      | Some err => (EmptyString, Some err)
      | None =>
          match io_Copy_fault f body with
          | Some (_, err) => (EmptyString, Some err)
          | None => (f, file_Close_err f)
          end
      end
  end.

End Environment.

(** *** A sample environment *)

(** A stand-in for [url.Parse]: the empty string is refused, anything else
    is taken as a path. *)
Definition sample_Parse (s : string) : URL + error :=
  if decide (s = EmptyString) then inr (ErrorString "parse: empty url")
  else inl {| Scheme := "http"; Host := "bundles:3187"; Path := s;
              RawQuery := EmptyString; Fragment := EmptyString |}.

Definition sample_qs : gmap string string :=
  {[ "path" := "cmd/a b.go"; "line" := "10"; "q" := "x&y=z" ]}.

Definition forward_range (m : gmap string string) : list (string * string) :=
  map_to_list m.
Definition backward_range (m : gmap string string) : list (string * string) :=
  reverse (map_to_list m).
Definition forward_keys (m : gmap string (list string)) : list string :=
  (map_to_list m).*1.
Definition backward_keys (m : gmap string (list string)) : list string :=
  reverse (map_to_list m).*1.

(** The server answers every request with the same body and the given
    status; the copy into the file breaks after four bytes. *)

Definition sample_url_String (u : URL) : string :=
  if decide (RawQuery u = EmptyString) then Path u
  else Path u +:+ "?" +:+ RawQuery u.

Definition sample_check (method url : string) : option error := None.

Definition sample_body : ReadCloser := {| body_id := 1; body_data := "lsif dump of zap" |}.

Definition sample_response (status : Z) : Response :=
  {| StatusCode := status; Body := sample_body |}.

Definition sample_client (status : Z) : clientImpl :=
  {| url := "http://bundles:3187";
     httpClient := λ _, inl (sample_response status);
     httpLimiter := Some 500%nat;
     userAgent := "precise-code-intel-worker" |}.

Definition sample_ctx : Context := {| deadline := None; spans := [] |}.

Definition empty_world : World := {| files := ∅; heap := ∅; trace := [] |}.

Definition sample_uuid : string + error := inl "5f2b4c1e".
Definition sample_Create (path : string) : option error := None.
Definition sample_Copy_fault (path : string) (body : ReadCloser) : option (nat * error) :=
  Some (4%nat, ErrorString "unexpected EOF").
Definition sample_Close (path : string) : option error := None.
Definition sample_Decode (b : bytes) : option bytes * option error := (Some b, None).

Definition sample_upload_url : URL :=
  {| Scheme := "http"; Host := "bundles:3187"; Path := "http://bundles:3187/uploads/42";
     RawQuery := EmptyString; Fragment := EmptyString |}.

Definition sample_run_op (status : Z) (o : Op (V := string)) : World * (string * option error) :=
  run_op id forward_range forward_keys sample_Parse sample_url_String sample_check
    sample_uuid sample_Create sample_Copy_fault sample_Close sample_Decode
    (sample_client status) sample_ctx 42 o empty_world.

End Client.

(** ** The observability decorator *)

Module Observed.

Import Client.

(** The value a query decodes into.  [QueryBundle] forwards [&target]:
    a pointer to the interface variable that holds the caller's value. *)
Inductive Target :=
| Pointer (addr : nat)
| AddressOf (held : Target).

(** The two client objects a bundle client can be bound to. *)
Inductive ClientRef := TheBase | TheObserved.

(** Modelled from the spec: the struct [bundleClientImpl], whose declaration
    is not among the sources; the spec describes it as a value object
    binding a Bundle Identifier to a Client, with no state of its own. *)
Record bundleClientImpl := { base : ClientRef; bundleID : Z }.

#[global] Instance ClientRef_eq_dec : EqDecision ClientRef.
Proof. solve_decision. Defined.

(** One [OperationMetrics]: the observed durations, the count and the
    number of errors. *)
Record OperationMetrics := {
  Duration : list Z;
  Count : Z;
  Errors : Z
}.

(** The method [Observe] of an operation metrics pointer; a nil receiver
    records nothing. *)
Definition Observe (m : option OperationMetrics) (secs count : Z) (err : option error)
  : option OperationMetrics :=
  match m with
  | None => None
  | Some m =>
      Some {| Duration := Duration m ++ [secs];
              Count := Count m + count;
              Errors := if is_nil err then Errors m else Errors m + 1 |}
  end.

Record ClientMetrics := {
  mSendUpload : option OperationMetrics;
  mGetUpload : option OperationMetrics;
  mSendDB : option OperationMetrics;
  mQueryBundle : option OperationMetrics
}.

Inductive TraceEvent :=
| TrNew (family : string)
| TrSetError (family : string) (err : option error)
| TrFinish (family : string).

(** What the decorator adds to the world: metrics, logged errors, traces. *)
Record Telemetry := {
  metrics : ClientMetrics;
  logged : list (string * list (string * error));
  traces : list TraceEvent
}.

(** [log]: the logger is called only on a non-nil error, with the pair
    "error", err in front of the context fields (none here). *)
Definition log (msg : string) (err : option error) (t : Telemetry) : Telemetry :=
  match err with
  | None => t
  | Some e =>
      {| metrics := metrics t; logged := logged t ++ [(msg, [("error", e)])];
         traces := traces t |}
  end.

Definition trace_event (e : TraceEvent) (t : Telemetry) : Telemetry :=
  {| metrics := metrics t; logged := logged t; traces := traces t ++ [e] |}.

(** [c.tracer.New(ctx, family, title)]: a trace and the context that carries it. *)
Definition tracer_New (ctx : Context) (family : string) (t : Telemetry)
  : Telemetry * (string * Context) :=
  (trace_event (TrNew family) t,
   (family, {| deadline := deadline ctx; spans := family :: spans ctx |})).

Definition with_metrics (f : ClientMetrics → ClientMetrics) (t : Telemetry) : Telemetry :=
  {| metrics := f (metrics t); logged := logged t; traces := traces t |}.

Section Wrapped.

Context {S V : Type}.

(** Modelled from the spec: the interface [ClientBase], whose declaration is
    not among the sources: the Transport operations the decorator calls on
    the client it wraps.  [S] is the state of the wrapped client and of the
    world it acts on. *)
Record ClientBase := {
  base_BundleClient : Z → bundleClientImpl;
  base_SendUpload : Context → Z → bytes → S → S * option error;
  base_GetUpload : Context → Z → string → S → S * (string * option error);
  base_SendDB : Context → Z → bytes → S → S * option error;
  base_QueryBundle : Context → Z → string → gmap string V → Target → S → S * option error
}.

(** [time.Now], read off the state of the world. *)
Variable clock : S → Z.

(** The decorator holds the wrapped client (the field [base] of the
    struct).  Its fields [logger] and [tracer], both taken to be present,
    act on the telemetry only, and the counters of [metrics] are part of
    the telemetry. *)
Record ObservedClient := { wrapped : ClientBase }.

Definition NewObservedClient (b : ClientBase) : ObservedClient := {| wrapped := b |}.

Definition BundleClient (c : ObservedClient) (bundleID : Z) : bundleClientImpl :=
  (* Override the default so we get the instrumented QueryBundle *)
  {| base := TheObserved; bundleID := bundleID |}.

(** The deferred function of an observed operation. *)
Definition observed_defer (family msg : string)
    (observe : Z → Z → option error → ClientMetrics → ClientMetrics)
    (began now : Z) (err : option error) (t : Telemetry) : Telemetry :=
  let secs := now - began in
  let t := with_metrics (observe secs 1 err) t in
  let t := log msg err t in
  let t := trace_event (TrSetError family err) t in
  trace_event (TrFinish family) t.

Definition observe_SendUpload (secs count : Z) (err : option error) (m : ClientMetrics) :=
  {| mSendUpload := Observe (mSendUpload m) secs count err; mGetUpload := mGetUpload m;
     mSendDB := mSendDB m; mQueryBundle := mQueryBundle m |}.

Definition observe_GetUpload (secs count : Z) (err : option error) (m : ClientMetrics) :=
  {| mSendUpload := mSendUpload m; mGetUpload := Observe (mGetUpload m) secs count err;
     mSendDB := mSendDB m; mQueryBundle := mQueryBundle m |}.

Definition observe_SendDB (secs count : Z) (err : option error) (m : ClientMetrics) :=
  {| mSendUpload := mSendUpload m; mGetUpload := mGetUpload m;
     mSendDB := Observe (mSendDB m) secs count err; mQueryBundle := mQueryBundle m |}.

Definition observe_QueryBundle (secs count : Z) (err : option error) (m : ClientMetrics) :=
  {| mSendUpload := mSendUpload m; mGetUpload := mGetUpload m;
     mSendDB := mSendDB m; mQueryBundle := Observe (mQueryBundle m) secs count err |}.

Definition SendUpload (c : ObservedClient) (ctx : Context) (bundleID : Z) (r : bytes)
    (st : S * Telemetry) : (S * Telemetry) * option error :=
  let '(s, t) := st in
  let '(t, (tr, ctx)) := tracer_New ctx "Client.SendUpload" t in
  let began := clock s in
  let '(s, err) := base_SendUpload (wrapped c) ctx bundleID r s in
  let t := observed_defer tr "client.send-upload" observe_SendUpload began (clock s) err t in
  ((s, t), err).

Definition GetUpload (c : ObservedClient) (ctx : Context) (bundleID : Z) (dir : string)
    (st : S * Telemetry) : (S * Telemetry) * (string * option error) :=
  let '(s, t) := st in
  let '(t, (tr, ctx)) := tracer_New ctx "Client.GetUpload" t in
  let began := clock s in
  let '(s, (path, err)) := base_GetUpload (wrapped c) ctx bundleID dir s in
  let t := observed_defer tr "client.get-upload" observe_GetUpload began (clock s) err t in
  ((s, t), (path, err)).

Definition SendDB (c : ObservedClient) (ctx : Context) (bundleID : Z) (r : bytes)
    (st : S * Telemetry) : (S * Telemetry) * option error :=
  let '(s, t) := st in
  let '(t, (tr, ctx)) := tracer_New ctx "Client.SendDB" t in
  let began := clock s in
  let '(s, err) := base_SendDB (wrapped c) ctx bundleID r s in
  let t := observed_defer tr "client.send-db" observe_SendDB began (clock s) err t in
  ((s, t), err).

Definition QueryBundle (c : ObservedClient) (ctx : Context) (bundleID : Z) (op : string)
    (qs : gmap string V) (target : Target) (st : S * Telemetry)
  : (S * Telemetry) * option error :=
  let '(s, t) := st in
  let '(t, (tr, ctx)) := tracer_New ctx "Client.QueryBundle" t in
  let began := clock s in
  let '(s, err) := base_QueryBundle (wrapped c) ctx bundleID op qs (AddressOf target) s in
  let t := observed_defer tr "client.query-bundle" observe_QueryBundle began (clock s) err t in
  ((s, t), err).

(** The context an observed operation hands to the wrapped client. *)
Definition forwarded_ctx (ctx : Context) (family : string) : Context :=
  {| deadline := deadline ctx; spans := family :: spans ctx |}.

End Wrapped.

(** A wrapped client in the manner of [clientImpl]: its bundle clients are
    bound to itself; its state is the list of the calls it served. *)
Definition sample_base : ClientBase (S := list string) (V := string) :=
  {| base_BundleClient := λ bundleID, {| base := TheBase; bundleID := bundleID |};
     base_SendUpload := λ _ _ _ s, (s ++ ["SendUpload"], None);
     base_GetUpload := λ _ _ dir s, (s ++ ["GetUpload"], (filepath_Join [dir; "5f2b4c1e"], None));
     base_SendDB := λ _ _ _ s, (s ++ ["SendDB"], Some (ErrorString "unexpected status code 507"));
     base_QueryBundle := λ _ _ _ _ _ s, (s ++ ["QueryBundle"], None) |}.

End Observed.

(** ** More vocabulary: runs of the pool, events, query strings *)

Module PoolRuns.

Import FanOut.

(** The steps a pool still has to take before its caller returns (one per
    spawn, one to reach [wg.Wait], one per unit, one to join). *)
Definition steps_left {U W : Type} (s : Pool (U := U) (W := W)) : nat :=
  match main s with
  | Spawning todo => 2 * length todo + length (running s) + 2
  | Waiting => length (running s) + 1
  | Done _ => length (running s)
  end.

End PoolRuns.

Module Schedules.

Import Orchestrator.

(** The subprocess run of one upload. *)
Definition upload_exec (owner name rev : string) : Event :=
  EvExec "indexes" "src"
    [ "-endpoint=http://localhost:3080"; "lsif"; "upload"; "-root=/";
      "-repo=" +:+ ("github.com/" +:+ owner +:+ "/" +:+ name);
      "-commit=" +:+ rev;
      "-file=" +:+ (name +:+ "." +:+ rev +:+ ".dump") ].

(** A run of the upload tool [src]. *)
Definition is_upload_exec (e : Event) : bool :=
  match e with
  | EvExec _ command _ => bool_decide (command = "src")
  | _ => false
  end.

(** A task that only appends events of a given kind to the log. *)
Definition adds_only (P : Event → Prop) (t : World → World → option error → Prop) : Prop :=
  ∀ w w' r, t w w' r → ∃ evs, log w' = log w ++ evs ∧ Forall P evs.

(** The string has no dot in it. *)
Fixpoint no_dot (s : string) : bool :=
  match s with
  | EmptyString => true
  | String c rest => negb (bool_decide (c = ascii_of_nat 46)) && no_dot rest
  end.

(** The string has no separator in it. *)
Fixpoint no_slash (s : string) : bool :=
  match s with
  | EmptyString => true
  | String c rest => negb (bool_decide (c = "/"%char)) && no_slash rest
  end.

(** A single path element: not empty, without a separator, and neither
    [.] nor [..]. *)
Definition plain (s : string) : Prop :=
  no_slash s = true ∧ s ≠ EmptyString ∧ s ≠ "." ∧ s ≠ "..".

Section Sequential.

Variable CombinedOutput :
  string → string → list string → FileSys → FileSys * (string * option error).
Variable TempDir_pick : FileSys → string + error.
Variable MkdirAll_err : FileSys → string → option error.

(** One schedule of a fan-out: the units one at a time, in the order in
    which they are spawned, and the first non-nil result. *)
Definition phase_seq {U : Type} (f : U → World → World * option error)
    (units : list U) (w : World) : World * option error :=
  let '(w', rs) := run_in_order f units w in (w', FanOut.drain rs).

Definition ensureAllCloned_seq : World → World * option error :=
  phase_seq (ensureCloned CombinedOutput) repos.

Definition ensureIndexed_seq (repo : Repo) : World → World * option error :=
  phase_seq (λ rev, index CombinedOutput TempDir_pick (owner repo) (name repo) rev)
    (revs repo).

Definition ensureAllIndexed_seq : World → World * option error :=
  phase_seq ensureIndexed_seq repos.

Definition ensureAllUploaded_seq : World → World * option error :=
  phase_seq (λ p : Repo * string, upload CombinedOutput (owner p.1) (name p.1) p.2)
    (all_revs repos).

Definition mainErr_seq (w : World) : World * option error :=
  match os_MkdirAll MkdirAll_err "repos" w with
  | (w, Some err) => (w, Some err)
  | (w, None) =>
      match os_MkdirAll MkdirAll_err "indexes" w with
      | (w, Some err) => (w, Some err)
      | (w, None) =>
          match ensureAllCloned_seq w with
          | (w, Some err) => (w, Some err)
          | (w, None) =>
              match ensureAllIndexed_seq w with
              | (w, Some err) => (w, Some err)
              | (w, None) => ensureAllUploaded_seq w
              end
          end
      end
  end.

End Sequential.

(** A second sample environment, in which every subprocess succeeds and a
    clone creates the directory of zap; nothing is on disk yet. *)
Definition quiet_CombinedOutput (dir command : string) (args : list string)
    (d : FileSys) : FileSys * (string * option error) :=
  if decide (command = "git" ∧ dir = "repos") then
    ({| entries := {[ "repos/zap" ]} ∪ entries d;
        stat_faults := delete "repos/zap" (stat_faults d); cwd := cwd d |},
     (EmptyString, None))
  else (d, (EmptyString, None)).

Definition quiet_MkdirAll_err (d : FileSys) (path : string) : option error := None.

Definition clean_world : World :=
  {| disk := {| entries := ∅; stat_faults := ∅; cwd := inl "/work" |}; log := [] |}.

End Schedules.

Module Traces.

Import Client.

(** How many of the events are of a given kind. *)
Definition occurrences (p : Event → bool) (evs : list Event) : nat :=
  length (filter (λ e, p e = true) evs).

Definition is_acquire (e : Event) : bool :=
  match e with EvAcquire => true | _ => false end.

Definition is_release (e : Event) : bool :=
  match e with EvRelease => true | _ => false end.

Definition is_request (e : Event) : bool :=
  match e with EvDo _ => true | _ => false end.

Definition is_close (e : Event) : bool :=
  match e with EvBodyClose _ => true | _ => false end.

Definition is_finish (e : Event) : bool :=
  match e with EvFinishSpan _ => true | _ => false end.

Definition is_set_error (e : Event) : bool :=
  match e with EvSetError _ => true | _ => false end.

(** How often a character occurs in a string. *)
Fixpoint count_char (c : ascii) (s : string) : nat :=
  match s with
  | EmptyString => 0
  | String c' rest => (if bool_decide (c' = c) then 1 else 0) + count_char c rest
  end.

(** A buffer of [Values.Encode] that holds [n] pairs. *)
Definition holds_pairs (buf : string) (n : nat) : Prop :=
  count_char "=" buf = n ∧ count_char "&" buf = pred n ∧ (buf = EmptyString ↔ n = 0%nat).

(** A server that cannot be reached. *)
Definition unreachable_client : clientImpl :=
  {| url := "http://bundles:3187";
     httpClient := λ _, inr (ErrorString "connection refused");
     httpLimiter := Some 500%nat;
     userAgent := "precise-code-intel-worker" |}.

(** A copy that goes through. *)
Definition no_Copy_fault (path : string) (body : ReadCloser) : option (nat * error) := None.

(** A request that cannot be built. *)
Definition refusing_check (method url : string) : option error :=
  Some (ErrorString "net/http: invalid method").

End Traces.

Module Sessions.

Import Client Observed.

(** The four observed operations, with the family of their trace, the
    message of their log entry and their metrics. *)
Inductive Kind := KSendUpload | KGetUpload | KSendDB | KQueryBundle.

#[global] Instance Kind_eq_dec : EqDecision Kind.
Proof. solve_decision. Defined.

Definition family (κ : Kind) : string :=
  match κ with
  | KSendUpload => "Client.SendUpload"
  | KGetUpload => "Client.GetUpload"
  | KSendDB => "Client.SendDB"
  | KQueryBundle => "Client.QueryBundle"
  end.

Definition message (κ : Kind) : string :=
  match κ with
  | KSendUpload => "client.send-upload"
  | KGetUpload => "client.get-upload"
  | KSendDB => "client.send-db"
  | KQueryBundle => "client.query-bundle"
  end.

Definition metric (κ : Kind) (m : ClientMetrics) : option OperationMetrics :=
  match κ with
  | KSendUpload => mSendUpload m
  | KGetUpload => mGetUpload m
  | KSendDB => mSendDB m
  | KQueryBundle => mQueryBundle m
  end.

Definition observe (κ : Kind) : Z → Z → option error → ClientMetrics → ClientMetrics :=
  match κ with
  | KSendUpload => observe_SendUpload
  | KGetUpload => observe_GetUpload
  | KSendDB => observe_SendDB
  | KQueryBundle => observe_QueryBundle
  end.

Section Calls.

Context {S V : Type}.
Variable clock : S → Z.

(** A call a user of the client makes. *)
Inductive Call :=
| CallSendUpload (ctx : Context) (bundleID : Z) (r : bytes)
| CallGetUpload (ctx : Context) (bundleID : Z) (dir : string)
| CallSendDB (ctx : Context) (bundleID : Z) (r : bytes)
| CallQueryBundle (ctx : Context) (bundleID : Z) (op : string) (qs : gmap string V)
    (target : Target).

Definition kind (k : Call) : Kind :=
  match k with
  | CallSendUpload _ _ _ => KSendUpload
  | CallGetUpload _ _ _ => KGetUpload
  | CallSendDB _ _ _ => KSendDB
  | CallQueryBundle _ _ _ _ _ => KQueryBundle
  end.

(** The call made on the observed client. *)
Definition call_observed (c : ObservedClient (S := S) (V := V)) (k : Call)
    (st : S * Telemetry) : (S * Telemetry) * (string * option error) :=
  match k with
  | CallSendUpload ctx bundleID r =>
      let '(st, err) := SendUpload clock c ctx bundleID r st in (st, (EmptyString, err))
  | CallGetUpload ctx bundleID dir => GetUpload clock c ctx bundleID dir st
  | CallSendDB ctx bundleID r =>
      let '(st, err) := SendDB clock c ctx bundleID r st in (st, (EmptyString, err))
  | CallQueryBundle ctx bundleID op qs target =>
      let '(st, err) := QueryBundle clock c ctx bundleID op qs target st in
      (st, (EmptyString, err))
  end.

(** The call the observed client makes on the client it wraps. *)
Definition call_base (b : ClientBase (S := S) (V := V)) (k : Call) (s : S)
  : S * (string * option error) :=
  match k with
  | CallSendUpload ctx bundleID r =>
      let '(s, err) := base_SendUpload b (forwarded_ctx ctx "Client.SendUpload") bundleID r s in
      (s, (EmptyString, err))
  | CallGetUpload ctx bundleID dir =>
      base_GetUpload b (forwarded_ctx ctx "Client.GetUpload") bundleID dir s
  | CallSendDB ctx bundleID r =>
      let '(s, err) := base_SendDB b (forwarded_ctx ctx "Client.SendDB") bundleID r s in
      (s, (EmptyString, err))
  | CallQueryBundle ctx bundleID op qs target =>
      let '(s, err) :=
        base_QueryBundle b (forwarded_ctx ctx "Client.QueryBundle") bundleID op qs
          (AddressOf target) s in
      (s, (EmptyString, err))
  end.

(** Calls made one after the other, and what each returned. *)
Fixpoint session_observed (c : ObservedClient (S := S) (V := V)) (ks : list Call)
    (st : S * Telemetry) : (S * Telemetry) * list (string * option error) :=
  match ks with
  | [] => (st, [])
  | k :: ks =>
      let '(st, r) := call_observed c k st in
      let '(st, rs) := session_observed c ks st in
      (st, r :: rs)
  end.


(** The calls of one operation, and those of them that failed. *)
Definition calls_of (κ : Kind) (ks : list Call) : nat :=
  length (filter (λ k, kind k = κ) ks).

Definition failures_of (κ : Kind) (ks : list Call) (rs : list (string * option error)) : nat :=
  length (filter (λ kr : Call * (string * option error),
                    kind kr.1 = κ ∧ is_nil kr.2.2 = false) (zip ks rs)).

(** The trace events and the log entries one call gives rise to. *)
Definition call_traces (kr : Call * (string * option error)) : list TraceEvent :=
  [TrNew (family (kind kr.1)); TrSetError (family (kind kr.1)) kr.2.2;
   TrFinish (family (kind kr.1))].

Definition call_logged (kr : Call * (string * option error))
  : list (string * list (string * error)) :=
  match kr.2.2 with
  | Some e => [(message (kind kr.1), [("error", e)])]
  | None => []
  end.

End Calls.

(** Fresh telemetry, with every metric registered. *)
Definition zero_metrics : OperationMetrics := {| Duration := []; Count := 0; Errors := 0 |}.

Definition fresh_telemetry : Telemetry :=
  {| metrics := {| mSendUpload := Some zero_metrics; mGetUpload := Some zero_metrics;
                   mSendDB := Some zero_metrics; mQueryBundle := Some zero_metrics |};
     logged := []; traces := [] |}.

Definition sample_clock (s : list string) : Z := Z.of_nat (length s).

Definition sample_calls : list (Call (V := string)) :=
  [ CallSendUpload sample_ctx 42 "dump";
    CallSendDB sample_ctx 42 "db";
    CallGetUpload sample_ctx 42 "/tmp";
    CallSendDB sample_ctx 43 "db" ].

End Sessions.

(** * Properties *)

(** ** Paths

    [Clean], [Join] and [Base] agree with the tables of Go's own tests of
    [path/filepath] on the entries below. *)

Module PathFacts.

Example filepath_Clean_examples :
  filepath_Clean EmptyString = "." ∧
  filepath_Clean "abc" = "abc" ∧
  filepath_Clean "abc/def" = "abc/def" ∧
  filepath_Clean "." = "." ∧
  filepath_Clean ".." = ".." ∧
  filepath_Clean "../../abc" = "../../abc" ∧
  filepath_Clean "/abc" = "/abc" ∧
  filepath_Clean "/" = "/" ∧
  filepath_Clean "abc/" = "abc" ∧
  filepath_Clean "./" = "." ∧
  filepath_Clean "/abc/" = "/abc" ∧
  filepath_Clean "abc//def//ghi" = "abc/def/ghi" ∧
  filepath_Clean "//abc" = "/abc" ∧
  filepath_Clean "abc/./def" = "abc/def" ∧
  filepath_Clean "abc/." = "abc" ∧
  filepath_Clean "abc/def/ghi/../jkl" = "abc/def/jkl" ∧
  filepath_Clean "abc/def/../.." = "." ∧
  filepath_Clean "/abc/def/../.." = "/" ∧
  filepath_Clean "abc/def/../../.." = ".." ∧
  filepath_Clean "/abc/def/../../.." = "/" ∧
  filepath_Clean "abc/def/../../../ghi/jkl/../../../mno" = "../../mno" ∧
  filepath_Clean "/../abc" = "/abc" ∧
  filepath_Clean "abc/../../././../def" = "../../def".
Proof. vm_compute. repeat split. Qed.

Example filepath_Join_examples :
  filepath_Join [] = EmptyString ∧
  filepath_Join [EmptyString] = EmptyString ∧
  filepath_Join ["a"] = "a" ∧
  filepath_Join ["a"; "b"] = "a/b" ∧
  filepath_Join ["a"; EmptyString] = "a" ∧
  filepath_Join [EmptyString; "b"] = "b" ∧
  filepath_Join ["/"; "a"] = "/a" ∧
  filepath_Join ["/"; EmptyString] = "/" ∧
  filepath_Join ["a/"; "b"] = "a/b" ∧
  filepath_Join ["a/"; EmptyString] = "a" ∧
  filepath_Join [EmptyString; EmptyString] = EmptyString ∧
  filepath_Join ["/tmp/"; "5f2b4c1e"] = "/tmp/5f2b4c1e" ∧
  filepath_Join ["."; "5f2b4c1e"] = "5f2b4c1e" ∧
  filepath_Join ["./078943215"; "zap"] = "078943215/zap".
Proof. vm_compute. repeat split. Qed.

Example filepath_Base_examples :
  filepath_Base EmptyString = "." ∧
  filepath_Base "." = "." ∧
  filepath_Base "/." = "." ∧
  filepath_Base "/" = "/" ∧
  filepath_Base "////" = "/" ∧
  filepath_Base "x/" = "x" ∧
  filepath_Base "abc" = "abc" ∧
  filepath_Base "abc/def" = "def" ∧
  filepath_Base "a/b/.x" = ".x" ∧
  filepath_Base "a/b/c." = "c." ∧
  filepath_Base "a/b/c.x" = "c.x" ∧
  filepath_Base "/usr/local/bin/precise-code-intel-worker" = "precise-code-intel-worker".
Proof. vm_compute. repeat split. Qed.

End PathFacts.

(** ** Fan-out / fan-in *)

Module FanOutFacts.

Import FanOut.

Lemma drain_None (rs : list (option error)) :
  drain rs = None ↔ Forall (eq None) rs.
Proof.
  induction rs as [|[e|] rs IH]; simpl.
  - split; [constructor | done].
  - split; [done | by inversion 1].
  - rewrite IH. split; [by constructor | by inversion 1].
Qed.

Lemma drain_Some (rs : list (option error)) (e : error) :
  drain rs = Some e →
  ∃ pre post, rs = pre ++ Some e :: post ∧ Forall (eq None) pre.
Proof.
  induction rs as [|[e'|] rs IH]; simpl; intros H; [done| |].
  - injection H as ->. by exists [], rs.
  - destruct (IH H) as (pre & post & -> & Hpre).
    exists (None :: pre), post. split; [done | by constructor].
Qed.

Section PoolFacts.

Context {U W : Type}.
Variable task : U → W → W → option error → Prop.

Lemma seq_run_snoc order w w1 rs u w2 r :
  seq_run task order w w1 rs → task u w1 w2 r →
  seq_run task (order ++ [u]) w w2 (rs ++ [r]).
Proof.
  induction 1 as [w|u' us w wa wb r' rs' Ht Hrun IH]; intros Hu; simpl.
  - econstructor; [done | constructor].
  - econstructor; [done | by apply IH].
Qed.

Lemma seq_run_length order w w' rs :
  seq_run task order w w' rs → length rs = length order.
Proof. induction 1; simpl; congruence. Qed.

Lemma init_inv capacity units w :
  pool_inv task capacity units w (init capacity units w).
Proof.
  split; simpl; try done.
  exists []. split; [constructor | done].
Qed.

Lemma step_inv capacity units w0 s s' :
  pool_inv task capacity units w0 s → step task s s' →
  pool_inv task capacity units w0 s'.
Proof.
  intros [(finished & Hrun & Hperm) Hwg Hcap Hdone] Hstep.
  destruct Hstep as [s u todo Hm|s Hm|s before u after w' r Hr Ht Hroom|s Hm Hz];
    split; simpl; try done.
  - exists finished. split; [done|].
    rewrite Hm in Hperm. simpl in Hperm. by rewrite <- (assoc_L (++)).
  - rewrite length_app, Hwg. simpl. lia.
  - exists finished. split; [done|]. by rewrite Hm in Hperm.
  - exists (finished ++ [u]). split; [by eapply seq_run_snoc|].
    rewrite <- Hperm, Hr, <- !(assoc_L (++)). simpl.
    apply Permutation_app_head. apply Permutation_middle.
  - rewrite Hwg, Hr, !length_app. simpl. lia.
  - intros r0 Hm. destruct (Hdone r0 Hm) as [Hnil _].
    rewrite Hnil in Hr. by destruct before.
  - exists finished. split; [done|]. by rewrite Hm in Hperm.
  - intros r0 [= <-]. split; [|done].
    rewrite Hwg in Hz. by apply nil_length_inv.
Qed.

Lemma reachable_inv capacity units w s :
  rtc (step task) (init capacity units w) s →
  pool_inv task capacity units w s.
Proof.
  intros Hrtc. revert s Hrtc. apply (rtc_ind_r (R := step task)).
  - apply init_inv.
  - intros y z _ Hstep IH. by eapply step_inv.
Qed.

(** Every step brings the caller closer to its return. *)
Lemma step_fuel capacity units w0 s s' :
  pool_inv task capacity units w0 s → step task s s' → (fuel s' < fuel s)%nat.
Proof.
  intros Hinv Hstep.
  destruct Hstep as [s u todo Hm|s Hm|s before u after w' r Hr Ht Hroom|s Hm Hz];
    unfold fuel; simpl.
  - rewrite Hm, length_app. simpl. lia.
  - rewrite Hm. simpl. lia.
  - rewrite Hr, !length_app. simpl. destruct (main s); lia.
  - rewrite Hm. lia.
Qed.

(** While the caller has not returned, some goroutine or the caller can
    move: no send blocks on a channel with room for every unit. *)
Lemma pool_progress capacity units w0 s :
  (∀ u w, ∃ w' r, task u w w' r) →
  (length units ≤ capacity)%nat →
  pool_inv task capacity units w0 s →
  (∀ r, main s ≠ Done r) →
  ∃ s', step task s s'.
Proof.
  intros Htotal Hcap [(finished & Hrun & Hperm) Hwg Hc Hdone] Hnot.
  destruct (main s) as [[|u todo]| |r] eqn:Hm.
  - eexists. by apply step_spawned.
  - eexists. by eapply step_spawn.
  - destruct (running s) as [|u after] eqn:Hr.
    + eexists. apply step_join; [done|]. by rewrite Hwg.
    + destruct (Htotal u (world s)) as (w' & r & Ht).
      eexists. eapply (step_task task s [] u after); [done..|].
      apply seq_run_length in Hrun. apply Permutation_length in Hperm.
      rewrite !length_app in Hperm. simpl in Hperm. lia.
  - by destruct (Hnot r).
Qed.

Lemma pool_completes_from capacity units w0 :
  (∀ u w, ∃ w' r, task u w w' r) →
  (length units ≤ capacity)%nat →
  ∀ n s, (fuel s < n)%nat → pool_inv task capacity units w0 s →
         ∃ s' r, rtc (step task) s s' ∧ main s' = Done r.
Proof.
  intros Htotal Hcap. induction n as [|n IH]; intros s Hn Hinv; [lia|].
  destruct (main s) as [todo| |r] eqn:Hm.
  1,2: destruct (pool_progress capacity units w0 s) as [s1 Hs1];
         [done | done | done | intros r; by rewrite Hm | ];
       destruct (IH s1) as (s' & r & Hrtc & Hr);
         [ pose proof (step_fuel _ _ _ _ _ Hinv Hs1); lia
         | by eapply step_inv
         | exists s', r; split; [by eapply rtc_l | done] ].
  exists s, r. split; [apply rtc_refl | done].
Qed.

(** A fan-out returns, whatever its units do, when every unit returns. *)
Lemma fanout_returns capacity units w :
  (∀ u w, ∃ w' r, task u w w' r) →
  (length units ≤ capacity)%nat →
  ∃ w' r, fanout task capacity units w w' r.
Proof.
  intros Htotal Hcap.
  destruct (pool_completes_from capacity units w Htotal Hcap
              (S (fuel (init capacity units w))) (init capacity units w))
    as (s & r & Hrtc & Hr); [lia | apply init_inv |].
  exists (world s), r, s. done.
Qed.

(** What a returned fan-out has done. *)
Lemma fanout_sound capacity units w w' r :
  fanout task capacity units w w' r →
  ∃ order rs, order ≡ₚ units ∧ seq_run task order w w' rs ∧ r = drain rs.
Proof.
  intros (s & Hrtc & Hm & <-).
  destruct (reachable_inv _ _ _ _ Hrtc) as [(finished & Hrun & Hperm) _ _ Hdone].
  destruct (Hdone r Hm) as [Hnil ->].
  rewrite Hnil, Hm in Hperm. simpl in Hperm. rewrite (right_id_L [] (++)) in Hperm.
  by exists finished, (errs s).
Qed.

(** Every completion order can happen: the caller spawns all the units,
    they finish in the given order, and the caller joins. *)
Lemma spawn_all capacity errs0 w todo ran :
  rtc (step task)
    {| main := Spawning todo; running := ran; wg := length ran; errs := errs0;
       cap := capacity; world := w |}
    {| main := Waiting; running := ran ++ todo; wg := length (ran ++ todo);
       errs := errs0; cap := capacity; world := w |}.
Proof.
  revert ran. induction todo as [|u todo IH]; intros ran.
  - rewrite (right_id_L [] (++)). apply rtc_once. by apply step_spawned.
  - eapply rtc_l; [by eapply step_spawn|]. simpl.
    replace (S (length ran)) with (length (ran ++ [u])) by (rewrite length_app; simpl; lia).
    replace (ran ++ u :: todo) with ((ran ++ [u]) ++ todo) by (by rewrite <- (assoc_L (++))).
    apply IH.
Qed.

Lemma finish_in_order capacity order w w' rs :
  seq_run task order w w' rs →
  ∀ running0 errs0,
    order ≡ₚ running0 →
    (length errs0 + length running0 ≤ capacity)%nat →
    rtc (step task)
      {| main := Waiting; running := running0; wg := length running0; errs := errs0;
         cap := capacity; world := w |}
      {| main := Waiting; running := []; wg := 0; errs := errs0 ++ rs;
         cap := capacity; world := w' |}.
Proof.
  induction 1 as [w|u us w w1 w2 r rs Ht Hrun IH]; intros running0 errs0 Hperm Hroom.
  - apply Permutation_nil_l in Hperm. subst running0.
    rewrite (right_id_L [] (++)). apply rtc_refl.
  - assert (u ∈ running0) as Hin by (rewrite <- Hperm; left).
    apply list_elem_of_split in Hin as (before & after & ->).
    apply Permutation_cons_app_inv in Hperm.
    rewrite length_app in Hroom. simpl in Hroom.
    eapply rtc_l.
    { eapply (step_task task _ before u after w1 r); simpl; [done | done | lia]. }
    simpl.
    replace (pred (length (before ++ u :: after))) with (length (before ++ after))
      by (rewrite !length_app; simpl; lia).
    replace (errs0 ++ r :: rs) with ((errs0 ++ [r]) ++ rs) by (by rewrite <- (assoc_L (++))).
    apply IH; [done|]. rewrite !length_app. simpl. lia.
Qed.

Lemma fanout_complete capacity units order w w' rs :
  order ≡ₚ units →
  seq_run task order w w' rs →
  (length units ≤ capacity)%nat →
  fanout task capacity units w w' (drain rs).
Proof.
  intros Hperm Hrun Hcap.
  exists {| main := Done (drain rs); running := []; wg := 0; errs := rs;
            cap := capacity; world := w' |}.
  split; [|done].
  etrans; [apply (spawn_all capacity [] w units [])|]. simpl.
  etrans; [by apply (finish_in_order capacity order w w' rs Hrun units [])|]. simpl.
  apply rtc_once. by apply (step_join task
    {| main := Waiting; running := []; wg := 0; errs := rs; cap := capacity; world := w' |}).
Qed.

(** A unit of a sequence ran at some point of it. *)
Lemma seq_run_ran order w w' rs u :
  seq_run task order w w' rs → u ∈ order →
  ∃ before after rs1 rs2 w1 w2 r0,
    order = before ++ u :: after ∧
    seq_run task before w w1 rs1 ∧ task u w1 w2 r0 ∧ seq_run task after w2 w' rs2.
Proof.
  induction 1 as [w|u' us w wa wb r rs Ht Hrun IH]; [by intros ?%elem_of_nil|].
  intros [->|Hin]%elem_of_cons.
  - exists [], us, [], rs, w, wa, r. repeat split; [constructor | done | done].
  - destruct (IH Hin) as (b & a & rs1 & rs2 & w1 & w2 & r0 & -> & Hb & Hu & Ha).
    exists (u' :: b), a, (r :: rs1), rs2, w1, w2, r0.
    repeat split; [by econstructor | done | done].
Qed.

(** The unit whose error a sequence reports. *)
Lemma seq_run_failed order w w' rs e :
  seq_run task order w w' rs → drain rs = Some e →
  ∃ before u after rs1 rs2 w1 w2,
    order = before ++ u :: after ∧
    seq_run task before w w1 rs1 ∧ task u w1 w2 (Some e) ∧ seq_run task after w2 w' rs2.
Proof.
  induction 1 as [w|u' us w wa wb r rs Ht Hrun IH]; simpl; [done|].
  destruct r as [e'|].
  - intros [= ->]. exists [], u', us, [], rs, w, wa.
    repeat split; [constructor | done | done].
  - intros Hd.
    destruct (IH Hd) as (b & u & a & rs1 & rs2 & w1 & w2 & -> & Hb & Hu & Ha).
    exists (u' :: b), u, a, (None :: rs1), rs2, w1, w2.
    repeat split; [by econstructor | done | done].
Qed.

(** In a run of a fan-out every unit has run, at some point of the run. *)
Lemma fanout_ran_in capacity units w w' r u :
  fanout task capacity units w w' r → u ∈ units →
  ∃ w1 w2 r0, ran_in task units w w' u w1 w2 r0.
Proof.
  intros (order & rs & Hperm & Hrun & _)%fanout_sound Hin.
  rewrite <- Hperm in Hin.
  destruct (seq_run_ran _ _ _ _ _ Hrun Hin)
    as (b & a & rs1 & rs2 & w1 & w2 & r0 & -> & Hb & Hu & Ha).
  by exists w1, w2, r0, b, a, rs1, rs2.
Qed.

(** The error of a fan-out is the result of a unit of this run. *)
Lemma fanout_failed_ran_in capacity units w w' e :
  fanout task capacity units w w' (Some e) →
  ∃ u w1 w2, ran_in task units w w' u w1 w2 (Some e).
Proof.
  intros (order & rs & Hperm & Hrun & Hd)%fanout_sound.
  destruct (seq_run_failed _ _ _ _ e Hrun (eq_sym Hd))
    as (b & u & a & rs1 & rs2 & w1 & w2 & -> & Hb & Hu & Ha).
  by exists u, w1, w2, b, a, rs1, rs2.
Qed.

(** C2 — fan-out aggregation.  In every state a fan-out over [units] can
    reach: once the caller has returned [r], no goroutine is left running,
    the WaitGroup is at zero and the channel holds one result per unit, the
    results of all the units run to completion in some order (so no unit
    was cancelled or skipped); [r] is nil exactly when all of them are nil,
    and otherwise it is the first non-nil result in the channel.  And as
    long as every unit returns and the channel has room for one result per
    unit, the caller does return. *)
Theorem fan_out_aggregation capacity units w s :
  rtc (step task) (init capacity units w) s →
  (∀ r, main s = Done r →
     running s = [] ∧ wg s = 0%nat ∧
     length (errs s) = length units ∧
     (∃ order, order ≡ₚ units ∧ seq_run task order w (world s) (errs s)) ∧
     (r = None ↔ Forall (eq None) (errs s)) ∧
     (∀ e, r = Some e →
        ∃ pre post, errs s = pre ++ Some e :: post ∧ Forall (eq None) pre)) ∧
  ((∀ u w, ∃ w' r, task u w w' r) → (length units ≤ capacity)%nat →
   ∃ s' r, rtc (step task) s s' ∧ main s' = Done r).
Proof.
  intros Hrtc. pose proof (reachable_inv _ _ _ _ Hrtc) as Hinv. split.
  - intros r Hm.
    destruct Hinv as [(finished & Hrun & Hperm) Hwg _ Hdone].
    destruct (Hdone r Hm) as [Hnil ->].
    rewrite Hnil, Hm in Hperm. simpl in Hperm. rewrite (right_id_L [] (++)) in Hperm.
    repeat split.
    + done.
    + by rewrite Hwg, Hnil.
    + rewrite (seq_run_length _ _ _ _ Hrun). by apply Permutation_length.
    + by exists finished.
    + by apply drain_None.
    + by apply drain_None.
    + intros e He. by apply drain_Some.
  - intros Htotal Hcap.
    by apply (pool_completes_from capacity units w Htotal Hcap (S (fuel s))); [lia|].
Qed.

End PoolFacts.

Lemma sample_run :
  rtc (step sample_task) (init 2 [1; 2]%nat []) sample_final.
Proof.
  eapply rtc_l; [by eapply (step_spawn _ _ 1%nat [2%nat])|]. simpl.
  eapply rtc_l; [by eapply (step_spawn _ _ 2%nat [])|]. simpl.
  eapply rtc_l; [by eapply step_spawned|]. simpl.
  eapply rtc_l;
    [by eapply (step_task _ _ [1%nat] 2%nat [] [2%nat]
                  (Some (ErrorString "unit 2 failed"))); simpl; [| |lia]|].
  simpl.
  eapply rtc_l;
    [by eapply (step_task _ _ [] 1%nat [] [2; 1]%nat None); simpl; [| |lia]|].
  simpl.
  eapply rtc_l; [by eapply step_join|]. simpl.
  apply rtc_refl.
Defined.

Lemma fan_out_aggregation_witness :
  rtc (step sample_task) (init 2 [1; 2]%nat []) sample_final ∧
  length (errs sample_final) = 2%nat ∧
  ∃ pre post,
    errs sample_final = pre ++ Some (ErrorString "unit 2 failed") :: post ∧
    Forall (eq None) pre.
Proof.
  split; [exact sample_run|].
  destruct (fan_out_aggregation sample_task 2 [1; 2]%nat [] sample_final sample_run)
    as [Hdone _].
  destruct (Hdone (Some (ErrorString "unit 2 failed")) eq_refl)
    as (_ & _ & Hlen & _ & _ & Hfirst).
  split; [exact Hlen | exact (Hfirst _ eq_refl)].
Defined.

End FanOutFacts.

(** ** The orchestrator's tasks *)

Module OrchestratorFacts.

Import Orchestrator.

(** A sequential task run on its own, and a list of them run in order,
    are runs of the fan-out's units. *)
Lemma lift_run (f : World → World * option error) (w : World) :
  lift f w (f w).1 (f w).2.
Proof. unfold lift. by destruct (f w). Qed.

Lemma seq_run_in_order {U : Type} (f : U → World → World * option error) order w :
  FanOut.seq_run (λ u, lift (f u)) order w
    (run_in_order f order w).1 (run_in_order f order w).2.
Proof.
  revert w. induction order as [|u rest IH]; intros w; simpl.
  - constructor.
  - destruct (f u w) as [w1 r] eqn:Hf.
    specialize (IH w1). destruct (run_in_order f rest w1) as [w2 rs]. simpl in *.
    by econstructor.
Qed.

Lemma total_revs_length (rs : list Repo) : total_revs rs = length (all_revs rs).
Proof.
  unfold total_revs, all_revs.
  enough (∀ n, foldl (λ total repo, (total + length (revs repo))%nat) n rs
               = (n + length (flat_map (λ repo, map (pair repo) (revs repo)) rs))%nat)
    as H by apply (H 0%nat).
  induction rs as [|repo rs IH]; intros n; simpl; [lia|].
  rewrite IH, length_app, length_map. lia.
Qed.

Section Tasks.

Variable CombinedOutput :
  string → string → list string → FileSys → FileSys * (string * option error).
Variable TempDir_pick : FileSys → string + error.

Abbreviation runCommand := (Orchestrator.runCommand CombinedOutput).
Abbreviation ensureCloned := (Orchestrator.ensureCloned CombinedOutput).
Abbreviation index := (Orchestrator.index CombinedOutput TempDir_pick).
Abbreviation index_commands := (Orchestrator.index_commands CombinedOutput).
Abbreviation ensureAllCloned := (Orchestrator.ensureAllCloned CombinedOutput).

(** A subprocess run adds exactly its own event to the log. *)
Lemma runCommand_log dir command args w :
  log (runCommand dir command args w).1 = log w ++ [EvExec dir command args].
Proof.
  unfold Orchestrator.runCommand. simpl.
  by destruct (CombinedOutput dir command args (disk w)) as [d [output [e|]]].
Qed.

Lemma clone_events_one_attempt repo : clone_attempts repo (clone_events repo) = 1%nat.
Proof.
  unfold clone_attempts, clone_events.
  rewrite filter_cons_False by done. by rewrite filter_cons_True by done.
Qed.

Lemma ensureCloned_exists repo w :
  dir_exists w repo → ensureCloned repo w = (w, None).
Proof. unfold dir_exists, Orchestrator.ensureCloned. by intros ->. Qed.

Lemma ensureCloned_missing repo w :
  dir_missing w repo →
  ensureCloned repo w =
    runCommand "repos" "git" ["clone"; cloneURL repo]
      (Printf ("Cloning " +:+ owner repo +:+ "/" +:+ name repo +:+ newline) w).
Proof.
  unfold dir_missing, Orchestrator.ensureCloned. intros H.
  destruct (os_Stat _ _) as [e|]; [|done]. cbv zeta. by rewrite H.
Qed.

Lemma ensureCloned_stat_error repo w e :
  os_Stat (disk w) (filepath_Join ["repos"; name repo]) = Some e →
  os_IsNotExist (Some e) = false →
  ensureCloned repo w = (w, Some e).
Proof. unfold Orchestrator.ensureCloned. intros -> H. cbv zeta. by rewrite H. Qed.

(** The loop over subprocess runs executes them in order and stops only
    at a failure. *)
Lemma run_commands_log (cmds : list (string * string * list string)) w :
  ∃ k, (k ≤ length cmds)%nat ∧
    log (run_commands (map (λ c, runCommand c.1.1 c.1.2 c.2) cmds) w).1
      = log w ++ take k (map exec_event cmds) ∧
    ((run_commands (map (λ c, runCommand c.1.1 c.1.2 c.2) cmds) w).2 = None →
       k = length cmds) ∧
    ((k < length cmds)%nat →
       (run_commands (map (λ c, runCommand c.1.1 c.1.2 c.2) cmds) w).2 ≠ None).
Proof.
  revert w. induction cmds as [|c cmds IH]; intros w.
  - exists 0%nat. simpl. rewrite (right_id_L [] (++)). repeat split; try done; lia.
  - pose proof (runCommand_log c.1.1 c.1.2 c.2 w) as Hlog. simpl.
    destruct (runCommand c.1.1 c.1.2 c.2 w) as [w1 [e|]]; simpl in Hlog.
    + exists 1%nat. simpl. rewrite take_0.
      repeat split; try done; lia.
    + destruct (IH w1) as (k & Hk & Hl & Hnone & Hlt).
      exists (S k). simpl. rewrite Hl, Hlog, <- (assoc_L (++)).
      repeat split; try done; try lia.
      * intros H. apply Hnone in H. lia.
      * intros H. apply Hlt. lia.
Qed.

Lemma index_commands_eq name rev tempDir indexFile :
  index_commands name rev tempDir indexFile =
  map (λ c, runCommand c.1.1 c.1.2 c.2)
    [ (EmptyString, "cp", ["-r"; filepath_Join ["repos"; name]; tempDir]);
      (filepath_Join [tempDir; name], "git", ["checkout"; rev]);
      (filepath_Join [tempDir; name], "go", ["mod"; "vendor"]);
      (filepath_Join [tempDir; name], "lsif-go", ["-o"; indexFile]) ].
Proof. reflexivity. Qed.

(** An index task that gets its workspace: the state it returns. *)
Lemma index_with_workspace owner name rev w indexFile tempDir :
  filepath_Abs (disk w) (indexFileName name rev) = inl indexFile →
  os_IsNotExist (os_Stat (disk w) indexFile) = true →
  TempDir_pick (disk w) = inl tempDir →
  ∃ w1,
    log w1 = log w ++ [EvTempDir tempDir;
                       EvPrintf ("Indexing " +:+ owner +:+ "/" +:+ name +:+ " at "
                                 +:+ rev +:+ newline)] ∧
    index owner name rev w =
      (os_RemoveAll tempDir
         (run_commands (index_commands name rev tempDir indexFile) w1).1,
       (run_commands (index_commands name rev tempDir indexFile) w1).2).
Proof.
  intros Habs Hstat Htmp. unfold Orchestrator.index. rewrite Habs.
  destruct (os_Stat (disk w) indexFile) as [e|]; [|done]. cbv zeta.
  rewrite Hstat. cbn [is_nil orb negb]. unfold ioutil_TempDir. rewrite Htmp.
  match goal with
  | |- context [run_commands ?c ?x] =>
      exists x; split; [|by destruct (run_commands c x)]
  end.
  simpl. by rewrite <- (assoc_L (++)).
Qed.

(** C3 (as amended) — when the existence check fails with an error other
    than not-found, the clone task and the index task skip their work and
    return that error to the caller, the world untouched. *)
Theorem stat_error_is_returned repo owner name rev w path e :
  os_Stat (disk w) path = Some e →
  os_IsNotExist (Some e) = false →
  (path = filepath_Join ["repos"; Orchestrator.name repo] →
   ensureCloned repo w = (w, Some e)) ∧
  (filepath_Abs (disk w) (indexFileName name rev) = inl path →
   index owner name rev w = (w, Some e)).
Proof.
  intros Hstat Hnot. split.
  - intros ->. by apply ensureCloned_stat_error.
  - intros Habs. unfold Orchestrator.index. rewrite Habs, Hstat. cbv zeta.
    by rewrite Hnot.
Qed.

(** C5 (as amended) — the index task is idempotent on its artifact.  If
    the artifact is there the task returns nil and leaves the world as it
    is: no subprocess, no workspace.  If it is not there the task asks for
    a workspace; without one it returns the error and runs nothing; with
    one it runs copy, checkout, vendor, indexer in that order, each in the
    file system the step before it left, stops after the first step that
    fails, and removes the workspace; it returns nil exactly when all four
    steps have succeeded. *)
Theorem index_skips_or_runs_steps owner name rev w indexFile :
  filepath_Abs (disk w) (indexFileName name rev) = inl indexFile →
  (os_Stat (disk w) indexFile = None → index owner name rev w = (w, None)) ∧
  (os_IsNotExist (os_Stat (disk w) indexFile) = true →
   match TempDir_pick (disk w) with
   | inr err => index owner name rev w = (w, Some err)
   | inl tempDir =>
       let targetDir := filepath_Join [tempDir; name] in
       let copy :=
         CombinedOutput EmptyString "cp" ["-r"; filepath_Join ["repos"; name]; tempDir]
           (with_workspace tempDir (disk w)) in
       let checkout := CombinedOutput targetDir "git" ["checkout"; rev] copy.1 in
       let vendor := CombinedOutput targetDir "go" ["mod"; "vendor"] checkout.1 in
       let indexer := CombinedOutput targetDir "lsif-go" ["-o"; indexFile] vendor.1 in
       log (index owner name rev w).1 =
         log w
         ++ [EvTempDir tempDir;
             EvPrintf ("Indexing " +:+ owner +:+ "/" +:+ name +:+ " at "
                       +:+ rev +:+ newline)]
         ++ take (steps_until (is_nil copy.2.2) (is_nil checkout.2.2) (is_nil vendor.2.2))
              (index_steps name rev tempDir indexFile)
         ++ [EvRemoveAll tempDir] ∧
       ((index owner name rev w).2 = None ↔
        is_nil copy.2.2 && is_nil checkout.2.2 && is_nil vendor.2.2
          && is_nil indexer.2.2 = true)
   end).
Proof.
  intros Habs. split.
  - intros Hstat. unfold Orchestrator.index. by rewrite Habs, Hstat.
  - intros Hstat. unfold Orchestrator.index. rewrite Habs.
    destruct (os_Stat (disk w) indexFile) as [e|]; [|done]. cbv zeta.
    rewrite Hstat. cbn [is_nil orb negb]. unfold ioutil_TempDir.
    destruct (TempDir_pick (disk w)) as [tempDir|err]; [|done].
    unfold Orchestrator.index_commands, Orchestrator.runCommand, Printf, emit,
      with_workspace, index_steps, steps_until.
    cbn [run_commands disk log].
    destruct (CombinedOutput EmptyString "cp" _ _) as [d1 [o1 [e1|]]];
      cbn [fst snd is_nil andb take os_RemoveAll emit log disk];
      [split; [by rewrite <- !(assoc_L (++)) | by split]|].
    destruct (CombinedOutput _ "git" _ d1) as [d2 [o2 [e2|]]];
      cbn [fst snd is_nil andb take os_RemoveAll emit log disk];
      [split; [by rewrite <- !(assoc_L (++)) | by split]|].
    destruct (CombinedOutput _ "go" _ d2) as [d3 [o3 [e3|]]];
      cbn [fst snd is_nil andb take os_RemoveAll emit log disk];
      [split; [by rewrite <- !(assoc_L (++)) | by split]|].
    destruct (CombinedOutput _ "lsif-go" _ d3) as [d4 [o4 [e4|]]];
      cbn [fst snd is_nil andb take os_RemoveAll emit log disk];
      (split; [by rewrite <- !(assoc_L (++)) | by split]).
Qed.

(** C6 — the workspace does not outlive its task.  When an index task has
    created its workspace, then in the world it returns, whatever its
    result, nothing exists at or below the workspace directory, and the
    removal is the last thing the task did. *)
Theorem workspace_removed owner name rev w indexFile tempDir :
  filepath_Abs (disk w) (indexFileName name rev) = inl indexFile →
  os_IsNotExist (os_Stat (disk w) indexFile) = true →
  TempDir_pick (disk w) = inl tempDir →
  EvTempDir tempDir ∈ log (index owner name rev w).1 ∧
  last (log (index owner name rev w).1) = Some (EvRemoveAll tempDir) ∧
  ∀ p, is_under tempDir p = true → p ∉ entries (disk (index owner name rev w).1).
Proof.
  intros Habs Hstat Htmp.
  destruct (index_with_workspace owner name rev w indexFile tempDir Habs Hstat Htmp)
    as (w1 & Hlog1 & ->).
  rewrite index_commands_eq.
  destruct (run_commands_log
              [ (EmptyString, "cp", ["-r"; filepath_Join ["repos"; name]; tempDir]);
                (filepath_Join [tempDir; name], "git", ["checkout"; rev]);
                (filepath_Join [tempDir; name], "go", ["mod"; "vendor"]);
                (filepath_Join [tempDir; name], "lsif-go", ["-o"; indexFile]) ] w1)
    as (k & _ & Hlog & _).
  cbn [fst os_RemoveAll emit log disk]. repeat split.
  - rewrite Hlog, Hlog1. set_solver.
  - by rewrite last_snoc.
  - intros p Hp Hin. cbn [entries] in Hin.
    apply elem_of_filter in Hin as [Hno _]. congruence.
Qed.

(** The corpus names every repository once, and no two of its
    repositories share a remote. *)
Lemma NoDup_repos : NoDup repos.
Proof. apply (bool_decide_unpack _). vm_compute. exact I. Qed.

Lemma corpus_clone_exec_inj r1 r2 :
  r1 ∈ repos → r2 ∈ repos → clone_exec r1 = clone_exec r2 → r1 = r2.
Proof.
  assert (Forall (λ r1, Forall (λ r2, clone_exec r1 = clone_exec r2 → r1 = r2) repos) repos)
    as Hall by (apply (bool_decide_unpack _); vm_compute; exact I).
  intros H1 H2. rewrite Forall_forall in Hall.
  pose proof (Hall _ H1) as Hall1. rewrite Forall_forall in Hall1. by apply Hall1.
Qed.

Lemma clone_attempts_app repo evs1 evs2 :
  clone_attempts repo (evs1 ++ evs2)
  = (clone_attempts repo evs1 + clone_attempts repo evs2)%nat.
Proof. unfold clone_attempts. by rewrite filter_app, length_app. Qed.

(** What a clone task adds to the log. *)
Lemma ensureCloned_log repo w :
  log (ensureCloned repo w).1
  = log w ++ (if os_IsNotExist (os_Stat (disk w) (filepath_Join ["repos"; name repo]))
              then clone_events repo else []).
Proof.
  destruct (os_Stat (disk w) (filepath_Join ["repos"; name repo])) as [e|] eqn:Hstat.
  - destruct (os_IsNotExist (Some e)) eqn:Hne.
    + rewrite ensureCloned_missing by (unfold dir_missing; by rewrite Hstat).
      rewrite runCommand_log. unfold Printf, emit, clone_events, clone_exec, cloneURL.
      simpl. by rewrite <- (assoc_L (++)).
    + rewrite (ensureCloned_stat_error _ _ _ Hstat Hne).
      simpl. by rewrite (right_id_L [] (++)).
  - rewrite ensureCloned_exists by done. simpl. by rewrite (right_id_L [] (++)).
Qed.

(** The clone tasks of the other repositories start no clone of [repo]. *)
Lemma others_clone_elsewhere repo order w w' rs :
  repo ∈ repos → repo ∉ order → Forall (λ r, r ∈ repos) order →
  FanOut.seq_run (λ repo, lift (ensureCloned repo)) order w w' rs →
  ∃ evs, log w' = log w ++ evs ∧ clone_attempts repo evs = 0%nat.
Proof.
  intros Hrepo Hnot Hall Hrun.
  induction Hrun as [w|u us w w1 w2 r rs Ht _ IH].
  - exists []. by rewrite (right_id_L [] (++)).
  - apply not_elem_of_cons in Hnot as [Hne Hnot].
    apply Forall_cons in Hall as [Hu Hall].
    destruct (IH Hnot Hall) as (evs2 & Hlog2 & Hc2).
    unfold lift in Ht. pose proof (ensureCloned_log u w) as Hlog1.
    rewrite Ht in Hlog1. cbn [fst] in Hlog1.
    eexists. rewrite Hlog2, Hlog1, <- (assoc_L (++)). split; [done|].
    rewrite clone_attempts_app, Hc2, Nat.add_0_r.
    destruct (os_IsNotExist _); [|done].
    unfold clone_attempts, clone_events.
    rewrite filter_cons_False by done.
    rewrite filter_cons_False; [done|].
    intros Heq. by apply Hne, corpus_clone_exec_inj.
Qed.

(** C8 — clone attempts.  In every run of the clone phase each repository
    of the corpus has its task run exactly once (the tasks, in the order
    they finished, are a permutation of the corpus).  For every repository
    of the corpus, the run as a whole holds exactly one [git clone] from
    https://github.com/owner/name.git, started in [repos], when its
    directory was not there when its task ran, and none, the task
    returning nil and changing nothing, when the directory was there. *)
Theorem clone_phase_attempts w w' r :
  ensureAllCloned w w' r →
  (∃ order rs,
     order ≡ₚ repos ∧
     FanOut.seq_run (λ repo, lift (ensureCloned repo)) order w w' rs ∧
     r = FanOut.drain rs) ∧
  (∀ repo, repo ∈ repos →
     ∃ w1 w2 r0 evs,
       FanOut.ran_in (λ repo, lift (ensureCloned repo)) repos w w' repo w1 w2 r0 ∧
       log w' = log w ++ evs ∧
       (dir_missing w1 repo →
        log w2 = log w1 ++ clone_events repo ∧ clone_attempts repo evs = 1%nat) ∧
       (dir_exists w1 repo →
        w2 = w1 ∧ r0 = None ∧ clone_attempts repo evs = 0%nat)) ∧
  (∀ repo w1,
     (dir_missing w1 repo →
      log (ensureCloned repo w1).1 = log w1 ++ clone_events repo ∧
      clone_attempts repo (clone_events repo) = 1%nat) ∧
     (dir_exists w1 repo → ensureCloned repo w1 = (w1, None))).
Proof.
  intros Hrun. split; [|split].
  - by apply FanOutFacts.fanout_sound in Hrun.
  - intros repo Hrepo.
    destruct (FanOutFacts.fanout_ran_in _ _ _ _ _ _ repo Hrun Hrepo)
      as (w1 & w2 & r0 & Hran).
    pose proof Hran as (before & after & rs1 & rs2 & Hperm & Hb & Hu & Ha).
    pose proof NoDup_repos as Hnd. rewrite <- Hperm in Hnd.
    apply NoDup_app in Hnd as (_ & Hnb & Hnd).
    apply NoDup_cons in Hnd as [Hna _].
    assert (Forall (λ r, r ∈ repos) before ∧ Forall (λ r, r ∈ repos) after) as [Hinb Hina].
    { split; apply Forall_forall; intros x Hx; rewrite <- Hperm;
        apply elem_of_app; [by left | right; by right]. }
    assert (repo ∉ before) as Hnb' by (intros Hin; apply (Hnb _ Hin); by left).
    destruct (others_clone_elsewhere repo before w w1 rs1 Hrepo Hnb' Hinb Hb)
      as (evs1 & Hlog1 & Hc1).
    destruct (others_clone_elsewhere repo after w2 w' rs2 Hrepo Hna Hina Ha)
      as (evs2 & Hlog2 & Hc2).
    unfold lift in Hu. pose proof (ensureCloned_log repo w1) as Hlog.
    rewrite Hu in Hlog. cbn [fst] in Hlog.
    exists w1, w2, r0. eexists. split; [done|]. split.
    { rewrite Hlog2, Hlog, Hlog1, <- !(assoc_L (++)). reflexivity. }
    rewrite !clone_attempts_app, Hc1, Hc2, Nat.add_0_r. cbn [Nat.add]. split.
    + intros Hmiss. unfold dir_missing in Hmiss. rewrite Hmiss in Hlog |- *.
      split; [done | apply clone_events_one_attempt].
    + intros Hex. rewrite (ensureCloned_exists _ _ Hex) in Hu.
      injection Hu as <- <-. unfold dir_exists in Hex. rewrite Hex. by cbn.
  - intros repo w1. split.
    + intros Hmiss. split; [|apply clone_events_one_attempt].
      unfold dir_missing in Hmiss. by rewrite ensureCloned_log, Hmiss.
    + apply ensureCloned_exists.
Qed.

(** *** The phases are fan-outs

    Each phase returns, and what it returns is the first non-nil result of
    its units, all of them run, in the order in which they finished. *)

Lemma lift_total (f : World → World * option error) w : ∃ w' r, lift f w w' r.
Proof. eexists _, _. apply lift_run. Qed.

Lemma parallelForRepo_aggregates f w w' r :
  parallelForRepo f w w' r →
  ∃ order rs, order ≡ₚ repos ∧ FanOut.seq_run f order w w' rs ∧ r = FanOut.drain rs.
Proof. apply FanOutFacts.fanout_sound. Qed.

Lemma ensureIndexed_aggregates repo w w' r :
  Orchestrator.ensureIndexed CombinedOutput TempDir_pick repo w w' r →
  ∃ order rs,
    order ≡ₚ revs repo ∧
    FanOut.seq_run (λ rev, lift (index (owner repo) (Orchestrator.name repo) rev))
      order w w' rs ∧
    r = FanOut.drain rs.
Proof. apply FanOutFacts.fanout_sound. Qed.

Lemma ensureAllUploaded_aggregates w w' r :
  Orchestrator.ensureAllUploaded CombinedOutput w w' r →
  ∃ order rs,
    order ≡ₚ all_revs repos ∧
    FanOut.seq_run
      (λ p : Repo * string,
         lift (Orchestrator.upload CombinedOutput (owner p.1) (Orchestrator.name p.1) p.2))
      order w w' rs ∧
    r = FanOut.drain rs.
Proof. apply FanOutFacts.fanout_sound. Qed.

Lemma ensureAllCloned_returns w : ∃ w' r, ensureAllCloned w w' r.
Proof. apply FanOutFacts.fanout_returns; [intros; apply lift_total | done]. Qed.

Lemma ensureIndexed_returns repo w :
  ∃ w' r, Orchestrator.ensureIndexed CombinedOutput TempDir_pick repo w w' r.
Proof. apply FanOutFacts.fanout_returns; [intros; apply lift_total | done]. Qed.

Lemma ensureAllIndexed_returns w :
  ∃ w' r, Orchestrator.ensureAllIndexed CombinedOutput TempDir_pick w w' r.
Proof. apply FanOutFacts.fanout_returns; [intros; apply ensureIndexed_returns | done]. Qed.

Lemma ensureAllUploaded_returns w :
  ∃ w' r, Orchestrator.ensureAllUploaded CombinedOutput w w' r.
Proof.
  apply FanOutFacts.fanout_returns; [intros; apply lift_total|].
  by rewrite total_revs_length.
Qed.

(** A phase that fails ends the run: the later phases are not started. *)
Lemma run_phases_stops phase rest w w1 err :
  phase w w1 (Some err) → run_phases (phase :: rest) w w1 (Some err).
Proof. intros H. simpl. by exists w1, (Some err). Qed.

End Tasks.

(** C3, as stated, fails: the directory of etcd cannot be inspected (EACCES,
    which is not not-found), and the clone task returns that error, not
    nil; likewise the index task for an artifact that cannot be
    inspected. *)
Lemma stat_error_is_not_success :
  os_Stat (disk sample_world) "repos/etcd" = Some (PathError "stat" "repos/etcd" EACCES) ∧
  os_IsNotExist (Some (PathError "stat" "repos/etcd" EACCES)) = false ∧
  Orchestrator.ensureCloned sample_CombinedOutput etcd sample_world
    = (sample_world, Some (PathError "stat" "repos/etcd" EACCES)) ∧
  Orchestrator.index sample_CombinedOutput sample_TempDir_pick "uber-go" "zap" "r3"
    sample_world
    = (sample_world, Some (PathError "stat" "/work/indexes/zap.r3.dump" EACCES)) ∧
  Orchestrator.ensureCloned sample_CombinedOutput etcd sample_world
    ≠ (sample_world, None).
Proof. repeat split; try (vm_compute; reflexivity). by vm_compute. Qed.

Lemma stat_error_is_returned_witness :
  Orchestrator.ensureCloned sample_CombinedOutput etcd sample_world
    = (sample_world, Some (PathError "stat" "repos/etcd" EACCES)).
Proof.
  refine (proj1 (stat_error_is_returned sample_CombinedOutput sample_TempDir_pick
                   etcd "etcd-io" "etcd" "r1" sample_world "repos/etcd"
                   (PathError "stat" "repos/etcd" EACCES) _ _) _);
    vm_compute; reflexivity.
Defined.

(** C5, as stated, fails: an artifact that is not there does not make the
    four steps run.  When the checkout fails, the vendoring and the indexer
    are not started; when no workspace can be made, no step runs at all. *)
Lemma index_stops_at_failed_step :
  os_IsNotExist (os_Stat (disk sample_world) "/work/indexes/zap.r2.dump") = true ∧
  log (Orchestrator.index failing_git_CombinedOutput sample_TempDir_pick
         "uber-go" "zap" "r2" sample_world).1
    = [ EvTempDir "078943215";
        EvPrintf ("Indexing uber-go/zap at r2" +:+ newline);
        EvExec EmptyString "cp" ["-r"; "repos/zap"; "078943215"];
        EvExec "078943215/zap" "git" ["checkout"; "r2"];
        EvRemoveAll "078943215" ] ∧
  Orchestrator.index sample_CombinedOutput failing_TempDir_pick
    "uber-go" "zap" "r2" sample_world
    = (sample_world, Some (PathError "mkdir" "078943215" EACCES)).
Proof. repeat split; vm_compute; reflexivity. Qed.

(** An index task whose artifact is there, and one whose artifact is not
    there and whose indexer fails, after the three other steps. *)
Lemma index_skips_or_runs_steps_witness :
  Orchestrator.index sample_CombinedOutput sample_TempDir_pick "uber-go" "zap" "r1"
    sample_world = (sample_world, None) ∧
  log (Orchestrator.index sample_CombinedOutput sample_TempDir_pick
         "uber-go" "zap" "r2" sample_world).1 =
    log sample_world
    ++ [EvTempDir "078943215";
        EvPrintf ("Indexing " +:+ "uber-go" +:+ "/" +:+ "zap" +:+ " at "
                  +:+ "r2" +:+ newline)]
    ++ index_steps "zap" "r2" "078943215" "/work/indexes/zap.r2.dump"
    ++ [EvRemoveAll "078943215"] ∧
  (Orchestrator.index sample_CombinedOutput sample_TempDir_pick
     "uber-go" "zap" "r2" sample_world).2 ≠ None.
Proof.
  split.
  - refine (proj1 (index_skips_or_runs_steps sample_CombinedOutput sample_TempDir_pick
                     "uber-go" "zap" "r1" sample_world "/work/indexes/zap.r1.dump" _) _);
      vm_compute; reflexivity.
  - pose proof (proj2 (index_skips_or_runs_steps sample_CombinedOutput
                         sample_TempDir_pick "uber-go" "zap" "r2" sample_world
                         "/work/indexes/zap.r2.dump" eq_refl) eq_refl) as [Hlog Hres].
    split; [exact Hlog|].
    intros Hnil. apply Hres in Hnil. by vm_compute in Hnil.
Defined.

Lemma workspace_removed_witness :
  (Orchestrator.index sample_CombinedOutput sample_TempDir_pick "uber-go" "zap" "r2"
     sample_world).2 ≠ None ∧
  ("078943215/zap" ∉
     entries (disk (Orchestrator.index sample_CombinedOutput sample_TempDir_pick
                      "uber-go" "zap" "r2" sample_world).1)) ∧
  ("078943215" ∉
     entries (disk (Orchestrator.index sample_CombinedOutput sample_TempDir_pick
                      "uber-go" "zap" "r2" sample_world).1)).
Proof.
  split; [by vm_compute|].
  pose proof (workspace_removed sample_CombinedOutput sample_TempDir_pick
                "uber-go" "zap" "r2" sample_world "/work/indexes/zap.r2.dump"
                "078943215" eq_refl eq_refl eq_refl) as (_ & _ & Hgone).
  split; apply Hgone; vm_compute; reflexivity.
Defined.

(** A run of the clone phase in which the tasks finish in reverse order. *)
Lemma clone_phase_attempts_witness :
  Orchestrator.ensureAllCloned sample_CombinedOutput sample_world
    (run_in_order (Orchestrator.ensureCloned sample_CombinedOutput)
       (reverse repos) sample_world).1
    (FanOut.drain
       (run_in_order (Orchestrator.ensureCloned sample_CombinedOutput)
          (reverse repos) sample_world).2) ∧
  ∃ order rs,
    order ≡ₚ repos ∧
    FanOut.seq_run (λ repo, lift (Orchestrator.ensureCloned sample_CombinedOutput repo))
      order sample_world
      (run_in_order (Orchestrator.ensureCloned sample_CombinedOutput)
         (reverse repos) sample_world).1 rs ∧
    FanOut.drain
      (run_in_order (Orchestrator.ensureCloned sample_CombinedOutput)
         (reverse repos) sample_world).2 = FanOut.drain rs.
Proof.
  assert (Orchestrator.ensureAllCloned sample_CombinedOutput sample_world
            (run_in_order (Orchestrator.ensureCloned sample_CombinedOutput)
               (reverse repos) sample_world).1
            (FanOut.drain
               (run_in_order (Orchestrator.ensureCloned sample_CombinedOutput)
                  (reverse repos) sample_world).2)) as Hrun.
  { apply (FanOutFacts.fanout_complete _ _ _ (reverse repos));
      [apply reverse_Permutation | apply seq_run_in_order | done]. }
  split; [exact Hrun|].
  exact (proj1 (clone_phase_attempts sample_CombinedOutput _ _ _ Hrun)).
Defined.

End OrchestratorFacts.

(** ** The bundle-manager client *)

Module ClientFacts.

Import Client.

(** *** Query strings *)

Lemma merge_sort_permutation (l1 l2 : list string) :
  l1 ≡ₚ l2 → merge_sort String.le l1 = merge_sort String.le l2.
Proof.
  intros Hperm. apply (Sorted_unique String.le).
  - apply (Sorted_merge_sort String.le).
  - apply (Sorted_merge_sort String.le).
  - by rewrite !merge_sort_Permutation.
Qed.

Section QueryString.

Context {V : Type}.
Variable fmt_v : V → string.

(** The loop [values[k] = []string{fmt.Sprintf("%v", v)}], whatever the
    order of its iterations, builds the map of the rendered entries. *)
Lemma range_insert (l : list (string * V)) (m0 : gmap string (list string)) :
  foldl (λ (values : gmap string (list string)) kv, <[kv.1 := [fmt_v kv.2]]> values) m0 l
  = list_to_map (reverse (rendered fmt_v <$> l)) ∪ m0.
Proof.
  revert m0. induction l as [|[k v] l IH]; intros m0; simpl.
  - by rewrite (left_id_L ∅ (∪)).
  - rewrite IH, reverse_cons, list_to_map_app. simpl.
    rewrite insert_empty, <- (assoc_L (∪)). f_equal.
    by rewrite insert_union_singleton_l.
Qed.

Lemma values_of_range (qs : gmap string V) (l : list (string * V)) :
  l ≡ₚ map_to_list qs →
  foldl (λ (values : gmap string (list string)) kv, <[kv.1 := [fmt_v kv.2]]> values) ∅ l
  = (λ v, [fmt_v v]) <$> qs.
Proof.
  intros Hperm. rewrite range_insert, (right_id_L ∅ (∪)).
  rewrite <- (list_to_map_to_list ((λ v, [fmt_v v]) <$> qs)).
  apply list_to_map_proper.
  - rewrite fmap_reverse, reverse_Permutation, <- list_fmap_compose.
    rewrite (list_fmap_ext (fst ∘ rendered fmt_v) fst l) by done.
    rewrite Hperm. apply NoDup_fst_map_to_list.
  - by rewrite reverse_Permutation, Hperm, map_to_list_fmap.
Qed.

Variable url_Parse : string → URL + error.

Lemma Values_Encode_order range_keys range_keys' (v : gmap string (list string)) :
  visits_all_keys range_keys → visits_all_keys range_keys' →
  Values_Encode range_keys v = Values_Encode range_keys' v.
Proof.
  intros H1 H2. unfold Values_Encode.
  by rewrite (merge_sort_permutation (range_keys v) (range_keys' v))
    by (by rewrite (H1 v), (H2 v)).
Qed.

Lemma makeURL_canonical range_qs range_keys baseURL path (qs : gmap string V) :
  visits_all range_qs → visits_all_keys range_keys →
  makeURL fmt_v range_qs range_keys url_Parse baseURL path qs =
  match url_Parse (baseURL +:+ "/" +:+ path) with
  | inr err => inr err
  | inl u => inl (with_RawQuery u (Values_Encode listed_keys ((λ v, [fmt_v v]) <$> qs)))
  end.
Proof.
  intros Hqs Hkeys. unfold makeURL.
  rewrite (values_of_range qs (range_qs qs) (Hqs qs)).
  destruct (url_Parse _); [|done].
  rewrite (Values_Encode_order range_keys listed_keys); [done | done |].
  intros m. reflexivity.
Qed.

(** C9 — [makeURL] is deterministic.  Two calls with equal inputs return
    the same URL (or the same error), whatever the order in which each
    call's [range] loops visit the query parameters and the keys: the
    query string is the encoding, keys sorted, of the values rendered by
    [%v].  The same holds of [makeBundleURL]. *)
Theorem makeURL_deterministic range_qs range_keys range_qs' range_keys'
    baseURL path bundleID op (qs : gmap string V) :
  visits_all range_qs → visits_all_keys range_keys →
  visits_all range_qs' → visits_all_keys range_keys' →
  makeURL fmt_v range_qs range_keys url_Parse baseURL path qs
    = makeURL fmt_v range_qs' range_keys' url_Parse baseURL path qs ∧
  makeBundleURL fmt_v range_qs range_keys url_Parse baseURL bundleID op qs
    = makeBundleURL fmt_v range_qs' range_keys' url_Parse baseURL bundleID op qs ∧
  (∀ u, makeURL fmt_v range_qs range_keys url_Parse baseURL path qs = inl u →
        RawQuery u = Values_Encode listed_keys ((λ v, [fmt_v v]) <$> qs)).
Proof.
  intros H1 H2 H3 H4. repeat split.
  - by rewrite !makeURL_canonical.
  - unfold makeBundleURL. by rewrite !makeURL_canonical.
  - intros u. rewrite makeURL_canonical by done.
    destruct (url_Parse _); [|done]. by intros [= <-].
Qed.

End QueryString.

(** *** In the sample environment *)

Example QueryEscape_example :
  QueryEscape "cmd/a b.go?x=1&y~z" = "cmd%2Fa+b.go%3Fx%3D1%26y~z".
Proof. reflexivity. Qed.

Example makeBundleURL_example :
  makeBundleURL id backward_range backward_keys sample_Parse
    "http://bundles:3187" 42 "references" sample_qs
  = inl {| Scheme := "http"; Host := "bundles:3187";
           Path := "http://bundles:3187/dbs/42/references";
           RawQuery := "line=10&path=cmd%2Fa+b.go&q=x%26y%3Dz";
           Fragment := EmptyString |}.
Proof. vm_compute. reflexivity. Qed.

Lemma makeURL_deterministic_witness :
  makeURL id forward_range forward_keys sample_Parse "http://bundles:3187"
    "dbs/42/references" sample_qs
  = makeURL id backward_range backward_keys sample_Parse "http://bundles:3187"
      "dbs/42/references" sample_qs.
Proof.
  refine (proj1 (makeURL_deterministic id sample_Parse
                   forward_range forward_keys backward_range backward_keys
                   "http://bundles:3187" "dbs/42/references" 42 "references"
                   sample_qs _ _ _ _)).
  - intros m. reflexivity.
  - intros m. reflexivity.
  - intros m. apply reverse_Permutation.
  - intros m. apply reverse_Permutation.
Defined.

(** *** The four operations *)

Lemma emit_emits e w : emit e w = emits [e] w.
Proof. reflexivity. Qed.

Lemma emits_emits evs1 evs2 w : emits evs2 (emits evs1 w) = emits (evs1 ++ evs2) w.
Proof. unfold emits. simpl. by rewrite (assoc_L (++)). Qed.

Section Operations.

Context {V : Type}.
Variable fmt_v : V → string.
Variable range_qs : gmap string V → list (string * V).
Variable range_keys : gmap string (list string) → list string.
Variable url_Parse : string → URL + error.
Variable url_String : URL → string.
Variable NewRequest_check : string → string → option error.
Variable uuid_NewRandom : string + error.
Variable os_Create_err : string → option error.
Variable io_Copy_fault : string → ReadCloser → option (nat * error).
Variable file_Close_err : string → option error.
Variable json_Decode : bytes → option bytes * option error.

Abbreviation makeURL := (Client.makeURL fmt_v range_qs range_keys url_Parse).
Abbreviation makeBundleURL := (Client.makeBundleURL fmt_v range_qs range_keys url_Parse).
Abbreviation do := (Client.do url_String NewRequest_check).
Abbreviation SendUpload :=
  (Client.SendUpload fmt_v range_qs range_keys url_Parse url_String NewRequest_check).
Abbreviation GetUpload :=
  (Client.GetUpload fmt_v range_qs range_keys url_Parse url_String NewRequest_check
     uuid_NewRandom os_Create_err io_Copy_fault file_Close_err).
Abbreviation SendDB :=
  (Client.SendDB fmt_v range_qs range_keys url_Parse url_String NewRequest_check).
Abbreviation queryBundle :=
  (Client.queryBundle fmt_v range_qs range_keys url_Parse url_String NewRequest_check
     json_Decode).
Abbreviation run_op :=
  (Client.run_op fmt_v range_qs range_keys url_Parse url_String NewRequest_check
     uuid_NewRandom os_Create_err io_Copy_fault file_Close_err json_Decode).
Abbreviation op_url := (Client.op_url fmt_v range_qs range_keys url_Parse).
Abbreviation op_request := (Client.op_request url_String).
Abbreviation save_outcome :=
  (Client.save_outcome uuid_NewRandom os_Create_err io_Copy_fault file_Close_err).

(** [do] on a response whose status is not [http.StatusOK]. *)
Lemma do_status_not_ok c ctx span method u body w resp :
  NewRequest_check method (url_String u) = None →
  httpClient c (new_request url_String c ctx method u body) = inl resp →
  StatusCode resp ≠ http_StatusOK →
  do c ctx span method u body w =
    (emits (acquire_events c span
            ++ [EvTraceRequest; EvDo (new_request url_String c ctx method u body);
                EvBodyClose (body_id (Body resp)); EvTraceFinish]
            ++ release_events c) w,
     inr (status_error resp)).
Proof.
  intros Hcheck Hresp Hstatus. unfold Client.do, acquire_events, release_events.
  rewrite Hcheck, Hresp. destruct (decide _) as [_|Hno]; [|done].
  destruct (httpLimiter c); rewrite !emit_emits, !emits_emits; reflexivity.
Qed.

(** [do] on a response whose status is [http.StatusOK]. *)
Lemma do_status_ok c ctx span method u body w resp :
  NewRequest_check method (url_String u) = None →
  httpClient c (new_request url_String c ctx method u body) = inl resp →
  StatusCode resp = http_StatusOK →
  do c ctx span method u body w =
    (emits (acquire_events c span
            ++ [EvTraceRequest; EvDo (new_request url_String c ctx method u body);
                EvTraceFinish]
            ++ release_events c) w,
     inl (Body resp)).
Proof.
  intros Hcheck Hresp Hstatus. unfold Client.do, acquire_events, release_events.
  rewrite Hcheck, Hresp. destruct (decide _) as [Hno|_]; [done|].
  destruct (httpLimiter c); rewrite !emit_emits, !emits_emits; reflexivity.
Qed.

Ltac unfold_op :=
  unfold Client.run_op, Client.SendUpload, Client.GetUpload, Client.SendDB,
    Client.queryBundle, StartSpanFromContext, finish_span, Client.op_request, op_ctx,
    Client.op_url, op_tags in *;
  cbn [op_span op_method op_body] in *.

(** C7 — a response whose status is not OK is an error.  Each of the four
    operations then closes the response body inside [do] and returns the
    error "unexpected status code N"; in the trace of the call the close
    of the body comes before the error reaches the operation's span and
    before the span is finished, and nothing else is done with the body. *)
Theorem non_ok_status_is_error c ctx bundleID o w u resp :
  op_url c bundleID o = inl u →
  NewRequest_check (op_method o) (url_String u) = None →
  httpClient c (op_request c ctx o u) = inl resp →
  StatusCode resp ≠ http_StatusOK →
  run_op c ctx bundleID o w =
    (emits (EvStartSpan (op_span o) :: op_tags bundleID o
            ++ acquire_events c (op_span o)
            ++ [EvTraceRequest; EvDo (op_request c ctx o u);
                EvBodyClose (body_id (Body resp)); EvTraceFinish]
            ++ release_events c
            ++ [EvSetError (op_span o);
                EvSetTag (op_span o) "err" (Error (status_error resp));
                EvFinishSpan (op_span o)]) w,
     (EmptyString, Some (status_error resp))) ∧
  Error (status_error resp) = "unexpected status code " +:+ pretty (StatusCode resp).
Proof.
  intros Hurl Hcheck Hresp Hstatus. split; [|done].
  destruct o; unfold_op; rewrite Hurl;
    rewrite (do_status_not_ok _ _ _ _ _ _ _ resp Hcheck Hresp Hstatus);
    rewrite !emit_emits, !emits_emits; cbn [app];
    rewrite <- !(assoc_L (++)); reflexivity.
Qed.

(** C1 (as amended) — a response whose status is exactly 200 passes the
    status check of every operation: [do] returns the response body and no
    error; [SendUpload] and [SendDB] return nil; [GetUpload] returns what
    saving the body gives and [queryBundle] what decoding it gives. *)
Theorem status_200_is_success c ctx bundleID o w u resp :
  op_url c bundleID o = inl u →
  NewRequest_check (op_method o) (url_String u) = None →
  httpClient c (op_request c ctx o u) = inl resp →
  StatusCode resp = http_StatusOK →
  (do c (op_ctx ctx o) (op_span o) (op_method o) u (op_body o) w).2 = inl (Body resp) ∧
  (run_op c ctx bundleID o w).2 =
    match o with
    | OpSendUpload _ | OpSendDB _ => (EmptyString, None)
    | OpGetUpload dir => save_outcome dir (Body resp)
    | OpQueryBundle _ _ _ => (EmptyString, (json_Decode (body_data (Body resp))).2)
    end.
Proof.
  intros Hurl Hcheck Hresp Hstatus. split.
  - unfold Client.op_request in Hresp. by rewrite (do_status_ok _ _ _ _ _ _ _ resp).
  - destruct o; unfold_op; rewrite Hurl;
      rewrite (do_status_ok _ _ _ _ _ _ _ resp Hcheck Hresp Hstatus); try done.
    + unfold Client.save_outcome, openRandomFile, io_Copy.
      destruct uuid_NewRandom as [uuid|err]; [|done].
      destruct (os_Create_err _) as [err|]; [done|].
      destruct (io_Copy_fault _ _) as [[n err]|]; [done|].
      cbn [is_nil]. by destruct (file_Close_err _).
    + by destruct (json_Decode _) as [[v|] [err|]].
Qed.

(** C10 — a failed copy leaves the file behind.  When [GetUpload] has
    created its file and the copy of the response body fails after [n]
    bytes, it returns the empty path and the copy's error, and in the
    world it returns the file is still there, holding the first [n] bytes
    of the body; the other files are as they were. *)
Theorem failed_copy_leaves_partial_file c ctx bundleID dir w u resp uuid n err :
  op_url c bundleID (OpGetUpload dir) = inl u →
  NewRequest_check "GET" (url_String u) = None →
  httpClient c (op_request c ctx (OpGetUpload (V := V) dir) u) = inl resp →
  StatusCode resp = http_StatusOK →
  uuid_NewRandom = inl uuid →
  os_Create_err (filepath_Join [dir; uuid]) = None →
  io_Copy_fault (filepath_Join [dir; uuid]) (Body resp) = Some (n, err) →
  (GetUpload c ctx bundleID dir w).2 = (EmptyString, Some err) ∧
  files (GetUpload c ctx bundleID dir w).1
    = <[filepath_Join [dir; uuid] := String.substring 0 n (body_data (Body resp))]> (files w) ∧
  EvCreate (filepath_Join [dir; uuid]) ∈ trace (GetUpload c ctx bundleID dir w).1.
Proof.
  clear json_Decode. intros Hurl Hcheck Hresp Hstatus Huuid Hcreate Hcopy.
  unfold Client.op_url in Hurl. unfold Client.op_request, op_ctx in Hresp.
  cbn [op_span op_method op_body] in Hurl, Hresp.
  unfold Client.GetUpload, StartSpanFromContext, finish_span. rewrite Hurl.
  rewrite (do_status_ok _ _ _ _ _ _ _ resp Hcheck Hresp Hstatus).
  unfold openRandomFile, io_Copy. rewrite Huuid, Hcreate, Hcopy.
  cbn [is_nil fst snd]. repeat split.
  - unfold write_file. simpl. by rewrite insert_insert_eq.
  - simpl. rewrite !elem_of_app, !list_elem_of_singleton. tauto.
Qed.

End Operations.

(** C1, as stated, fails: 204 No Content is a 2xx status, and [SendUpload]
    returns an error for it. *)
Lemma no_content_is_an_error :
  200 ≤ 204 < 300 ∧
  (Client.SendUpload id forward_range forward_keys sample_Parse sample_url_String
     sample_check (sample_client 204) sample_ctx 42 "dump" empty_world).2
  = Some (ErrorString "unexpected status code 204").
Proof. split; [lia | vm_compute; reflexivity]. Qed.

Lemma status_200_is_success_witness :
  (sample_run_op 200 (OpSendUpload "dump")).2 = (EmptyString, None).
Proof.
  refine (proj2 (status_200_is_success id forward_range forward_keys sample_Parse
                   sample_url_String sample_check sample_uuid sample_Create
                   sample_Copy_fault sample_Close sample_Decode
                   (sample_client 200) sample_ctx 42 (OpSendUpload "dump") empty_world
                   sample_upload_url (sample_response 200) _ _ _ _));
    vm_compute; reflexivity.
Defined.

Lemma non_ok_status_is_error_witness :
  (sample_run_op 503 (OpGetUpload "/tmp")).2
  = (EmptyString, Some (ErrorString "unexpected status code 503")) ∧
  EvBodyClose 1 ∈ trace (sample_run_op 503 (OpGetUpload "/tmp")).1.
Proof.
  pose proof (non_ok_status_is_error id forward_range forward_keys sample_Parse
                sample_url_String sample_check sample_uuid sample_Create
                sample_Copy_fault sample_Close sample_Decode
                (sample_client 503) sample_ctx 42 (OpGetUpload "/tmp") empty_world
                sample_upload_url (sample_response 503)
                eq_refl eq_refl eq_refl) as H.
  destruct H as [H _]; [by vm_compute|].
  unfold sample_run_op. rewrite H. split; [reflexivity|].
  vm_compute. set_solver.
Defined.

Lemma failed_copy_leaves_partial_file_witness :
  (Client.GetUpload id forward_range forward_keys sample_Parse sample_url_String
     sample_check sample_uuid sample_Create sample_Copy_fault sample_Close
     (sample_client 200) sample_ctx 42 "/tmp" empty_world).2
  = (EmptyString, Some (ErrorString "unexpected EOF")) ∧
  files (Client.GetUpload id forward_range forward_keys sample_Parse sample_url_String
           sample_check sample_uuid sample_Create sample_Copy_fault sample_Close
           (sample_client 200) sample_ctx 42 "/tmp" empty_world).1
    !! "/tmp/5f2b4c1e" = Some "lsif".
Proof.
  pose proof (failed_copy_leaves_partial_file id forward_range forward_keys sample_Parse
                sample_url_String sample_check sample_uuid sample_Create
                sample_Copy_fault sample_Close
                (sample_client 200) sample_ctx 42 "/tmp" empty_world
                sample_upload_url (sample_response 200) "5f2b4c1e" 4%nat
                (ErrorString "unexpected EOF")
                eq_refl eq_refl eq_refl eq_refl eq_refl eq_refl eq_refl)
    as (Hres & Hfiles & _).
  split; [exact Hres|]. rewrite Hfiles. reflexivity.
Defined.

End ClientFacts.

(** ** The observability decorator *)

Module ObservedFacts.

Import Client Observed.

Section Transparency.

Context {S V : Type}.
Variable clock : S → Z.
Variable b : ClientBase (S := S) (V := V).

(** C4 (as amended) — the decorator forwards and returns unchanged.  For
    [SendUpload], [GetUpload], [SendDB] and [QueryBundle] the observed
    client calls the wrapped client once, with the caller's arguments (the
    context now carrying the trace, and for [QueryBundle] the address of
    the target), returns exactly the value and the error of that call and
    leaves the wrapped client in the state that call left it in.
    [BundleClient] is not forwarded: it returns a bundle client bound to
    the observed client itself. *)
Theorem observed_returns_wrapped_result ctx bundleID r dir op (qs : gmap string V)
    target (s : S) (t : Telemetry) :
  let c := NewObservedClient b in
  ((SendUpload clock c ctx bundleID r (s, t)).2
     = (base_SendUpload b (forwarded_ctx ctx "Client.SendUpload") bundleID r s).2 ∧
   (SendUpload clock c ctx bundleID r (s, t)).1.1
     = (base_SendUpload b (forwarded_ctx ctx "Client.SendUpload") bundleID r s).1) ∧
  ((GetUpload clock c ctx bundleID dir (s, t)).2
     = (base_GetUpload b (forwarded_ctx ctx "Client.GetUpload") bundleID dir s).2 ∧
   (GetUpload clock c ctx bundleID dir (s, t)).1.1
     = (base_GetUpload b (forwarded_ctx ctx "Client.GetUpload") bundleID dir s).1) ∧
  ((SendDB clock c ctx bundleID r (s, t)).2
     = (base_SendDB b (forwarded_ctx ctx "Client.SendDB") bundleID r s).2 ∧
   (SendDB clock c ctx bundleID r (s, t)).1.1
     = (base_SendDB b (forwarded_ctx ctx "Client.SendDB") bundleID r s).1) ∧
  ((QueryBundle clock c ctx bundleID op qs target (s, t)).2
     = (base_QueryBundle b (forwarded_ctx ctx "Client.QueryBundle") bundleID op qs
          (AddressOf target) s).2 ∧
   (QueryBundle clock c ctx bundleID op qs target (s, t)).1.1
     = (base_QueryBundle b (forwarded_ctx ctx "Client.QueryBundle") bundleID op qs
          (AddressOf target) s).1) ∧
  BundleClient c bundleID = {| base := TheObserved; bundleID := bundleID |}.
Proof.
  intros c. unfold SendUpload, GetUpload, SendDB, QueryBundle, tracer_New, forwarded_ctx.
  simpl. repeat split.
  - by destruct (base_SendUpload b _ _ _ _).
  - by destruct (base_SendUpload b _ _ _ _).
  - by destruct (base_GetUpload b _ _ _ _) as [? [? ?]].
  - by destruct (base_GetUpload b _ _ _ _) as [? [? ?]].
  - by destruct (base_SendDB b _ _ _ _).
  - by destruct (base_SendDB b _ _ _ _).
  - by destruct (base_QueryBundle b _ _ _ _ _ _).
  - by destruct (base_QueryBundle b _ _ _ _ _ _).
Qed.

(** The error count of an operation grows by one exactly when the wrapped
    call fails, and the call count by one in any case. *)
Lemma Observe_counts (m : OperationMetrics) secs err :
  ∃ m', Observe (Some m) secs 1 err = Some m' ∧
        Count m' = Count m + 1 ∧
        Errors m' = (if is_nil err then Errors m else Errors m + 1).
Proof. eexists. by repeat split. Qed.

End Transparency.

(** C4, as stated, fails for [BundleClient]: the observed client does not
    return the bundle client the wrapped client returns. *)
Lemma observed_bundle_client_differs :
  BundleClient (NewObservedClient sample_base) 42 = {| base := TheObserved; bundleID := 42 |} ∧
  base_BundleClient sample_base 42 = {| base := TheBase; bundleID := 42 |} ∧
  BundleClient (NewObservedClient sample_base) 42 ≠ base_BundleClient sample_base 42.
Proof. repeat split. discriminate. Qed.

End ObservedFacts.

(** ** More on the fan-out *)

Module PoolRunsFacts.

Import FanOut PoolRuns FanOutFacts.

Section Runs.

Context {U W : Type}.
Variable task : U → W → W → option error → Prop.

Lemma step_steps_left s s' :
  step task s s' → steps_left s = S (steps_left s').
Proof.
  intros Hstep.
  destruct Hstep as [s u todo Hm|s Hm|s before u after w' r Hr Ht Hroom|s Hm Hz];
    unfold steps_left; simpl.
  - rewrite Hm, length_app. simpl. lia.
  - rewrite Hm. simpl. lia.
  - rewrite Hr, !length_app. simpl. destruct (main s); lia.
  - rewrite Hm. lia.
Qed.

Lemma nsteps_steps_left n s s' :
  nsteps (step task) n s s' → steps_left s = (n + steps_left s')%nat.
Proof.
  induction 1 as [|n x y z Hstep _ IH]; [done|].
  rewrite (step_steps_left _ _ Hstep), IH. lia.
Qed.

(** X1 — a fan-out over N units takes exactly 2N+2 steps.  After [n] steps
    from the start, [n] plus the steps left is 2N+2, so no run is longer
    than that, and a run in which the caller has returned has taken
    exactly 2N+2 steps. *)
Theorem fan_out_step_count capacity units w n s :
  nsteps (step task) n (init capacity units w) s →
  (n + steps_left s = 2 * length units + 2)%nat ∧
  (n ≤ 2 * length units + 2)%nat ∧
  (∀ r, main s = Done r → n = (2 * length units + 2)%nat).
Proof.
  intros Hn. pose proof (nsteps_steps_left _ _ _ Hn) as Heq.
  unfold steps_left at 1 in Heq. simpl in Heq.
  repeat split; [lia | lia |].
  intros r Hm.
  destruct (reachable_inv task capacity units w s (rtc_nsteps_2 _ _ _ Hn))
    as [_ _ _ Hdone].
  destruct (Hdone r Hm) as [Hnil _].
  unfold steps_left in Heq. rewrite Hm, Hnil in Heq. simpl in Heq. lia.
Qed.

(** X2 — every completion order can happen.  For any order of the units
    and any results the units give when they finish in that order, the
    fan-out has a run that ends with exactly these results in the channel
    and returns the first non-nil one. *)
Theorem any_completion_order capacity units order w w' rs :
  order ≡ₚ units →
  seq_run task order w w' rs →
  (length units ≤ capacity)%nat →
  ∃ s, rtc (step task) (init capacity units w) s ∧
       main s = Done (drain rs) ∧ errs s = rs ∧ world s = w' ∧ running s = [].
Proof.
  intros Hperm Hrun Hcap.
  exists {| main := Done (drain rs); running := []; wg := 0; errs := rs;
            cap := capacity; world := w' |}.
  split; [|done].
  etrans; [apply (spawn_all task capacity [] w units [])|]. simpl.
  etrans; [by apply (finish_in_order task capacity order w w' rs Hrun units [])|]. simpl.
  apply rtc_once. by apply (step_join task
    {| main := Waiting; running := []; wg := 0; errs := rs; cap := capacity; world := w' |}).
Qed.

Lemma seq_run_total order w :
  (∀ u w, ∃ w' r, task u w w' r) → ∃ w' rs, seq_run task order w w' rs.
Proof.
  intros Htotal. revert w. induction order as [|u order IH]; intros w.
  - exists w, []. constructor.
  - destruct (Htotal u w) as (w1 & r & Ht). destruct (IH w1) as (w2 & rs & Hrun).
    exists w2, (r :: rs). by econstructor.
Qed.

(** X3 — which error comes back depends on the schedule.  If a unit fails
    with [e] whenever it runs, then the fan-out has a run that returns [e],
    whatever the other units do. *)
Theorem any_failing_unit_can_win capacity units u e w :
  (∀ u w, ∃ w' r, task u w w' r) →
  (∀ w w' r, task u w w' r → r = Some e) →
  u ∈ units →
  (length units ≤ capacity)%nat →
  ∃ w', fanout task capacity units w w' (Some e).
Proof.
  intros Htotal Hfail Hin Hcap.
  apply elem_of_Permutation in Hin as [rest Hperm].
  destruct (Htotal u w) as (w1 & r & Ht).
  pose proof (Hfail _ _ _ Ht) as ->.
  destruct (seq_run_total rest w1 Htotal) as (w2 & rs & Hrun).
  exists w2.
  apply (fanout_complete task capacity units (u :: rest) w w2 (Some e :: rs));
    [done | by econstructor | done].
Qed.

(** X4 — what the pool keeps count of.  In every state a fan-out can
    reach, every unit is in exactly one place: not yet spawned, running, or
    with its result in the channel (the units that have finished, in the
    order of their results, the running ones and those to spawn are a
    permutation of the units); the WaitGroup counts the running
    goroutines, and the channel never holds more than one result per
    unit. *)
Theorem pool_accounting capacity units w s :
  rtc (step task) (init capacity units w) s →
  (length (errs s) + length (running s) + length (todo_of (main s))
   = length units)%nat ∧
  wg s = length (running s) ∧
  (length (errs s) ≤ length units)%nat ∧
  cap s = capacity ∧
  ∃ finished,
    finished ++ running s ++ todo_of (main s) ≡ₚ units ∧
    seq_run task finished w (world s) (errs s).
Proof.
  intros Hrtc.
  destruct (reachable_inv task capacity units w s Hrtc)
    as [(finished & Hrun & Hperm) Hwg Hcap _].
  pose proof (seq_run_length _ _ _ _ _ Hrun) as Hlen.
  pose proof (Permutation_length Hperm) as Hsize.
  rewrite !length_app in Hsize.
  split; [lia|]. split; [done|]. split; [lia|]. split; [done|].
  by exists finished.
Qed.

End Runs.

Lemma sample_nsteps :
  nsteps (step sample_task) 6 (init 2 [1; 2]%nat []) sample_final.
Proof.
  eapply nsteps_l; [by eapply (step_spawn _ _ 1%nat [2%nat])|]. simpl.
  eapply nsteps_l; [by eapply (step_spawn _ _ 2%nat [])|]. simpl.
  eapply nsteps_l; [by eapply step_spawned|]. simpl.
  eapply nsteps_l;
    [by eapply (step_task _ _ [1%nat] 2%nat [] [2%nat]
                  (Some (ErrorString "unit 2 failed"))); simpl; [| |lia]|].
  simpl.
  eapply nsteps_l;
    [by eapply (step_task _ _ [] 1%nat [] [2; 1]%nat None); simpl; [| |lia]|].
  simpl.
  eapply nsteps_l; [by eapply step_join|]. simpl.
  apply nsteps_O.
Defined.

Lemma sample_seq_run :
  seq_run sample_task [2; 1]%nat [] [2; 1]%nat
    [Some (ErrorString "unit 2 failed"); None].
Proof.
  eapply (seq_run_cons _ 2%nat [1%nat] [] [2%nat]); [done|].
  eapply (seq_run_cons _ 1%nat [] [2%nat] [2; 1]%nat); [done|].
  constructor.
Defined.

Lemma sample_task_total (u : nat) (w : list nat) : ∃ w' r, sample_task u w w' r.
Proof. by eexists _, _. Defined.

Lemma fan_out_step_count_witness :
  (6 + steps_left sample_final = 2 * 2 + 2)%nat.
Proof.
  exact (proj1 (fan_out_step_count sample_task 2 [1; 2]%nat [] 6 sample_final
                  sample_nsteps)).
Defined.

Lemma any_completion_order_witness :
  ∃ s, rtc (step sample_task) (init 2 [1; 2]%nat []) s ∧
       main s = Done (Some (ErrorString "unit 2 failed")) ∧
       errs s = [Some (ErrorString "unit 2 failed"); None] ∧
       world s = [2; 1]%nat ∧ running s = [].
Proof.
  refine (any_completion_order sample_task 2 [1; 2]%nat [2; 1]%nat [] [2; 1]%nat
            [Some (ErrorString "unit 2 failed"); None] _ sample_seq_run _).
  - apply perm_swap.
  - simpl. lia.
Defined.

Lemma any_failing_unit_can_win_witness :
  ∃ w', fanout sample_task 2 [1; 2]%nat [] w' (Some (ErrorString "unit 2 failed")).
Proof.
  refine (any_failing_unit_can_win sample_task 2 [1; 2]%nat 2%nat
            (ErrorString "unit 2 failed") [] sample_task_total _ _ _).
  - intros w w' r [_ ->]. reflexivity.
  - set_solver.
  - simpl. lia.
Defined.

Lemma pool_accounting_witness :
  (length (errs sample_final) + length (running sample_final)
   + length (todo_of (main sample_final)) = 2)%nat.
Proof.
  exact (proj1 (pool_accounting sample_task 2 [1; 2]%nat [] sample_final
                  FanOutFacts.sample_run)).
Defined.

End PoolRunsFacts.

(** ** More on the orchestrator *)

Module SchedulesFacts.

Import Orchestrator Schedules OrchestratorFacts.

(** *** Logs only grow *)

Lemma seq_run_adds_only {U : Type} (P : Event → Prop)
    (task : U → World → World → option error → Prop) order w w' rs :
  (∀ u, adds_only P (task u)) →
  FanOut.seq_run task order w w' rs →
  ∃ evs, log w' = log w ++ evs ∧ Forall P evs.
Proof.
  intros Htask. induction 1 as [w|u us w w1 w2 r rs Ht _ IH].
  - exists []. by rewrite (right_id_L [] (++)).
  - destruct (Htask u _ _ _ Ht) as (evs1 & Hlog1 & HP1).
    destruct IH as (evs2 & Hlog2 & HP2).
    exists (evs1 ++ evs2). rewrite Hlog2, Hlog1, (assoc_L (++)).
    split; [done | by apply Forall_app].
Qed.

Lemma fanout_adds_only {U : Type} (P : Event → Prop)
    (task : U → World → World → option error → Prop) capacity units :
  (∀ u, adds_only P (task u)) →
  adds_only P (FanOut.fanout task capacity units).
Proof.
  intros Htask w w' r Hrun.
  apply FanOutFacts.fanout_sound in Hrun as (order & rs & _ & Hseq & _).
  by eapply seq_run_adds_only.
Qed.

Lemma lift_adds_only (P : Event → Prop) (f : World → World * option error) :
  (∀ w, ∃ evs, log (f w).1 = log w ++ evs ∧ Forall P evs) →
  adds_only P (lift f).
Proof.
  intros Hf w w' r Hrun. unfold lift in Hrun.
  destruct (Hf w) as (evs & Hlog & HP). rewrite Hrun in Hlog. by exists evs.
Qed.

(** The error a sequence of units reports is the result of one of them. *)
Lemma seq_run_error_source {U : Type}
    (task : U → World → World → option error → Prop) order w w' rs e :
  FanOut.seq_run task order w w' rs →
  FanOut.drain rs = Some e →
  ∃ u w1 w2, u ∈ order ∧ task u w1 w2 (Some e).
Proof.
  induction 1 as [w|u us w w1 w2 r rs Ht _ IH]; simpl; [done|].
  destruct r as [e'|].
  - intros [= ->]. exists u, w, w1. split; [left | done].
  - intros Hd. destruct (IH Hd) as (u' & wa & wb & Hin & Hu).
    exists u', wa, wb. split; [by right | done].
Qed.

(** Every unit of a sequence leaves its mark in the log. *)
Lemma seq_run_collects {U : Type} (E : U → Event)
    (task : U → World → World → option error → Prop) order w w' rs :
  (∀ u w1 w2 r, u ∈ order → task u w1 w2 r →
                ∃ evs, log w2 = log w1 ++ evs ∧ E u ∈ evs) →
  FanOut.seq_run task order w w' rs →
  ∃ evs, log w' = log w ++ evs ∧ ∀ u, u ∈ order → E u ∈ evs.
Proof.
  intros Htask Hrun. induction Hrun as [w|u us w w1 w2 r rs Ht _ IH].
  - exists []. rewrite (right_id_L [] (++)). split; [done|]. by intros u ?%elem_of_nil.
  - destruct (Htask u _ _ _ ltac:(by left) Ht) as (evs1 & Hlog1 & HE1).
    destruct IH as (evs2 & Hlog2 & HE2).
    { intros u' wa wb r' Hin. apply Htask. by right. }
    exists (evs1 ++ evs2). rewrite Hlog2, Hlog1, (assoc_L (++)).
    split; [done|]. intros u' [->|Hin]%elem_of_cons; apply elem_of_app; auto.
Qed.

Section Tasks.

Variable CombinedOutput :
  string → string → list string → FileSys → FileSys * (string * option error).
Variable TempDir_pick : FileSys → string + error.
Variable MkdirAll_err : FileSys → string → option error.

Abbreviation runCommand := (Orchestrator.runCommand CombinedOutput).
Abbreviation ensureCloned := (Orchestrator.ensureCloned CombinedOutput).
Abbreviation index := (Orchestrator.index CombinedOutput TempDir_pick).
Abbreviation upload := (Orchestrator.upload CombinedOutput).
Abbreviation ensureAllCloned := (Orchestrator.ensureAllCloned CombinedOutput).
Abbreviation ensureIndexed := (Orchestrator.ensureIndexed CombinedOutput TempDir_pick).
Abbreviation ensureAllIndexed := (Orchestrator.ensureAllIndexed CombinedOutput TempDir_pick).
Abbreviation ensureAllUploaded := (Orchestrator.ensureAllUploaded CombinedOutput).
Abbreviation mainErr := (Orchestrator.mainErr CombinedOutput TempDir_pick MkdirAll_err).

(** What a clone task adds to the log. *)
Lemma ensureCloned_adds repo w :
  ∃ evs, log (ensureCloned repo w).1 = log w ++ evs ∧
         (evs = [] ∨ evs = clone_events repo).
Proof.
  destruct (os_Stat (disk w) (filepath_Join ["repos"; name repo])) as [e|] eqn:Hstat.
  - destruct (os_IsNotExist (Some e)) eqn:Hne.
    + exists (clone_events repo). split; [|by right].
      rewrite ensureCloned_missing by (unfold dir_missing; by rewrite Hstat).
      rewrite runCommand_log. unfold Printf, emit, clone_events. simpl.
      by rewrite <- (assoc_L (++)).
    + exists []. rewrite (ensureCloned_stat_error _ _ _ e Hstat Hne).
      simpl. rewrite (right_id_L [] (++)). auto.
  - exists []. rewrite ensureCloned_exists by done.
    simpl. rewrite (right_id_L [] (++)). auto.
Qed.

(** What an index task adds to the log. *)
Lemma index_adds owner name rev w :
  ∃ evs, log (index owner name rev w).1 = log w ++ evs ∧
         Forall (λ e, is_upload_exec e = false) evs.
Proof.
  destruct (filepath_Abs (disk w) (indexFileName name rev)) as [indexFile|err] eqn:Habs;
    last first.
  { exists []. unfold Orchestrator.index. rewrite Habs. simpl.
    by rewrite (right_id_L [] (++)). }
  destruct (os_IsNotExist (os_Stat (disk w) indexFile)) eqn:Hne; last first.
  { exists []. unfold Orchestrator.index. rewrite Habs. cbv zeta.
    rewrite Hne. destruct (os_Stat (disk w) indexFile); simpl;
      by rewrite (right_id_L [] (++)). }
  destruct (TempDir_pick (disk w)) as [tempDir|err] eqn:Htmp; last first.
  { exists []. unfold Orchestrator.index. rewrite Habs.
    destruct (os_Stat (disk w) indexFile) as [e|]; [|done]. cbv zeta.
    rewrite Hne. cbn [is_nil orb negb]. unfold ioutil_TempDir. rewrite Htmp.
    simpl. by rewrite (right_id_L [] (++)). }
  destruct (index_with_workspace CombinedOutput TempDir_pick owner name rev w
              indexFile tempDir Habs Hne Htmp) as (w1 & Hlog1 & ->).
  rewrite index_commands_eq.
  destruct (run_commands_log CombinedOutput
              [ (EmptyString, "cp", ["-r"; filepath_Join ["repos"; name]; tempDir]);
                (filepath_Join [tempDir; name], "git", ["checkout"; rev]);
                (filepath_Join [tempDir; name], "go", ["mod"; "vendor"]);
                (filepath_Join [tempDir; name], "lsif-go", ["-o"; indexFile]) ] w1)
    as (k & _ & Hlog & _).
  eexists. cbn [fst os_RemoveAll emit log]. rewrite Hlog, Hlog1.
  rewrite <- !(assoc_L (++)). split; [done|].
  repeat (apply Forall_cons; split; [done|]).
  apply Forall_app. split; [|by repeat constructor].
  apply Forall_take. by repeat constructor.
Qed.

(** What an upload task adds to the log. *)
Lemma upload_adds owner name rev w :
  log (upload owner name rev w).1
  = log w ++ [EvPrintf ("Uploading " +:+ owner +:+ "/" +:+ name +:+ " at "
                        +:+ rev +:+ newline);
              EvExec "indexes" "src"
                [ "-endpoint=http://localhost:3080"; "lsif"; "upload"; "-root=/";
                  "-repo=" +:+ ("github.com/" +:+ owner +:+ "/" +:+ name);
                  "-commit=" +:+ rev;
                  "-file=" +:+ filepath_Join [name +:+ "." +:+ rev +:+ ".dump"] ]].
Proof.
  unfold Orchestrator.upload.
  match goal with
  | |- context [Orchestrator.runCommand ?co ?d ?c ?a ?x] =>
      pose proof (runCommand_log co d c a x) as Hlog;
      destruct (Orchestrator.runCommand co d c a x) as [w1 [e|]]
  end; simpl in *; rewrite Hlog; by rewrite <- (assoc_L (++)).
Qed.

(** The dump file names of the corpus are clean: [filepath.Join] leaves
    them as they are. *)
Lemma corpus_dump_names (p : Repo * string) :
  p ∈ all_revs repos →
  filepath_Join [name p.1 +:+ "." +:+ p.2 +:+ ".dump"]
  = name p.1 +:+ "." +:+ p.2 +:+ ".dump".
Proof.
  revert p. apply Forall_forall.
  apply (bool_decide_unpack _). vm_compute. exact I.
Qed.

(** *** The sequential schedule is one of the runs *)

Lemma seq_run_mono {U : Type} (t1 t2 : U → World → World → option error → Prop)
    order w w' rs :
  (∀ u w w' r, t1 u w w' r → t2 u w w' r) →
  FanOut.seq_run t1 order w w' rs → FanOut.seq_run t2 order w w' rs.
Proof. intros Hsub. induction 1; econstructor; eauto. Qed.

Lemma phase_seq_run {U : Type} (task : U → World → World → option error → Prop)
    (f : U → World → World * option error) capacity units w :
  (∀ u w, task u w (f u w).1 (f u w).2) →
  (length units ≤ capacity)%nat →
  FanOut.fanout task capacity units w (phase_seq f units w).1 (phase_seq f units w).2.
Proof.
  intros Hf Hcap. unfold phase_seq.
  pose proof (seq_run_in_order f units w) as Hrun.
  destruct (run_in_order f units w) as [w' rs]. simpl in *.
  apply (FanOutFacts.fanout_complete task capacity units units w w' rs); [done| |done].
  eapply seq_run_mono; [|exact Hrun].
  intros u w1 w2 r Hlift. unfold lift in Hlift.
  specialize (Hf u w1). by rewrite Hlift in Hf.
Qed.

Lemma ensureAllCloned_seq_run w :
  ensureAllCloned w (ensureAllCloned_seq CombinedOutput w).1
    (ensureAllCloned_seq CombinedOutput w).2.
Proof. apply phase_seq_run; [intros; apply lift_run | done]. Qed.

Lemma ensureIndexed_seq_run repo w :
  ensureIndexed repo w (ensureIndexed_seq CombinedOutput TempDir_pick repo w).1
    (ensureIndexed_seq CombinedOutput TempDir_pick repo w).2.
Proof. apply phase_seq_run; [intros; apply lift_run | done]. Qed.

Lemma ensureAllIndexed_seq_run w :
  ensureAllIndexed w (ensureAllIndexed_seq CombinedOutput TempDir_pick w).1
    (ensureAllIndexed_seq CombinedOutput TempDir_pick w).2.
Proof. apply phase_seq_run; [intros; apply ensureIndexed_seq_run | done]. Qed.

Lemma ensureAllUploaded_seq_run w :
  ensureAllUploaded w (ensureAllUploaded_seq CombinedOutput w).1
    (ensureAllUploaded_seq CombinedOutput w).2.
Proof.
  apply phase_seq_run; [intros; apply lift_run | by rewrite total_revs_length].
Qed.

Lemma mainErr_seq_run w :
  mainErr w (mainErr_seq CombinedOutput TempDir_pick MkdirAll_err w).1
    (mainErr_seq CombinedOutput TempDir_pick MkdirAll_err w).2.
Proof.
  unfold Orchestrator.mainErr, mainErr_seq.
  destruct (os_MkdirAll MkdirAll_err "repos" w) as [w1 [e|]]; [done|].
  destruct (os_MkdirAll MkdirAll_err "indexes" w1) as [w2 [e|]]; [done|].
  pose proof (ensureAllCloned_seq_run w2) as Hc.
  destruct (ensureAllCloned_seq CombinedOutput w2) as [w3 [e|]]; simpl in *.
  { by exists w3, (Some e). }
  exists w3, None. split; [done|].
  pose proof (ensureAllIndexed_seq_run w3) as Hi.
  destruct (ensureAllIndexed_seq CombinedOutput TempDir_pick w3) as [w4 [e|]]; simpl in *.
  { by exists w4, (Some e). }
  exists w4, None. split; [done|].
  pose proof (ensureAllUploaded_seq_run w4) as Hu.
  destruct (ensureAllUploaded_seq CombinedOutput w4) as [w5 [e|]]; simpl in *.
  - by exists w5, (Some e).
  - by exists w5, None.
Qed.

(** X5 — the program can always return.  Running the tasks one at a time,
    in the order of the corpus, is one of the runs of the concurrent
    program: [mainErr] can end in the world and with the error that this
    schedule gives.  No phase can block on its channel, the channel of the
    upload phase included, whose capacity is counted by a loop of its
    own. *)
Theorem mainErr_sequential_schedule w :
  mainErr w (mainErr_seq CombinedOutput TempDir_pick MkdirAll_err w).1
    (mainErr_seq CombinedOutput TempDir_pick MkdirAll_err w).2 ∧
  total_revs repos = length (all_revs repos).
Proof. split; [apply mainErr_seq_run | apply total_revs_length]. Qed.

(** *** The phases in order *)

Lemma clone_phase_adds :
  adds_only (λ e, is_upload_exec e = false) ensureAllCloned.
Proof.
  apply fanout_adds_only. intros repo. apply lift_adds_only. intros w.
  destruct (ensureCloned_adds repo w) as (evs & Hlog & [->| ->]);
    eexists; (split; [exact Hlog|]); by repeat constructor.
Qed.

Lemma index_phase_adds :
  adds_only (λ e, is_upload_exec e = false) ensureAllIndexed.
Proof.
  apply fanout_adds_only. intros repo. apply fanout_adds_only. intros rev.
  apply lift_adds_only. intros w. apply index_adds.
Qed.

Lemma mkdirs_log w w1 w2 :
  os_MkdirAll MkdirAll_err "repos" w = (w1, None) →
  os_MkdirAll MkdirAll_err "indexes" w1 = (w2, None) →
  log w2 = log w.
Proof.
  unfold os_MkdirAll. intros H1 H2.
  destruct (MkdirAll_err (disk w) "repos"); [done|]. injection H1 as <-.
  destruct (MkdirAll_err _ "indexes"); [done|]. by injection H2 as <-.
Qed.



(** X7 — a run without error has uploaded everything.  When [mainErr]
    returns nil, the log of the run holds, for every repository of the
    corpus and every one of its revisions, the run of the upload tool for
    that repository, commit and dump file. *)
Theorem successful_run_uploads_all w w' :
  mainErr w w' None →
  ∃ evs, log w' = log w ++ evs ∧
    ∀ repo rev, repo ∈ repos → rev ∈ revs repo →
      upload_exec (owner repo) (name repo) rev ∈ evs.
Proof.
  intros Hmain. unfold Orchestrator.mainErr in Hmain.
  destruct (os_MkdirAll MkdirAll_err "repos" w) as [w1 [e|]] eqn:H1;
    [by destruct Hmain|].
  destruct (os_MkdirAll MkdirAll_err "indexes" w1) as [w2 [e|]] eqn:H2;
    [by destruct Hmain|].
  pose proof (mkdirs_log _ _ _ H1 H2) as Hl2.
  destruct Hmain as (wa & ra & Hc & Hrest).
  destruct ra as [e|]; [by destruct Hrest|].
  destruct Hrest as (wb & rb & Hi & Hrest).
  destruct rb as [e|]; [by destruct Hrest|].
  destruct Hrest as (wc & rc & Hu & Hrest).
  destruct rc as [e|]; [by destruct Hrest|]. destruct Hrest as [-> _].
  destruct (clone_phase_adds _ _ _ Hc) as (evs_c & Hlc & _).
  destruct (index_phase_adds _ _ _ Hi) as (evs_i & Hli & _).
  apply FanOutFacts.fanout_sound in Hu as (order & rs & Hperm & Hseq & _).
  destruct (seq_run_collects
              (λ p : Repo * string, upload_exec (owner p.1) (name p.1) p.2)
              (λ p : Repo * string, lift (upload (owner p.1) (name p.1) p.2))
              order wb wc rs) as (evs_u & Hlu & Hall); [|exact Hseq|].
  { intros p wx wy r Hin Hlift. unfold lift in Hlift.
    pose proof (upload_adds (owner p.1) (name p.1) p.2 wx) as Hlog.
    rewrite Hlift in Hlog. rewrite Hperm in Hin.
    rewrite (corpus_dump_names p Hin) in Hlog.
    eexists. split; [exact Hlog|]. apply elem_of_cons. right. by left. }
  exists (evs_c ++ evs_i ++ evs_u).
  rewrite Hlu, Hli, Hlc, Hl2, <- !(assoc_L (++)). split; [done|].
  intros repo rev Hrepo Hrev. rewrite !elem_of_app. right; right.
  apply (Hall (repo, rev)). rewrite Hperm. unfold all_revs.
  apply list_elem_of_In, in_flat_map. exists repo.
  split; [by apply list_elem_of_In|]. apply in_map. by apply list_elem_of_In.
Qed.

(** X8 — the error of the index phase is the error of an index task of
    the run.  When the index phase returns an error, some repository of
    the corpus had its fan-out, run at some point of this run of the
    phase, return that error, and some revision of that repository had
    its index task, run at some point of that fan-out, return exactly
    that error. *)
Theorem index_phase_error_source w w' e :
  ensureAllIndexed w w' (Some e) →
  ∃ repo rev w1 w2 wa wb,
    repo ∈ repos ∧ rev ∈ revs repo ∧
    FanOut.ran_in ensureIndexed repos w w' repo w1 w2 (Some e) ∧
    FanOut.ran_in (λ rev, lift (index (owner repo) (name repo) rev)) (revs repo)
      w1 w2 rev wa wb (Some e) ∧
    index (owner repo) (name repo) rev wa = (wb, Some e).
Proof.
  intros Hrun.
  apply FanOutFacts.fanout_failed_ran_in in Hrun as (repo & w1 & w2 & Hrepo).
  pose proof Hrepo as (b & a & rs1 & rs2 & Hperm & _ & Hfan & _).
  apply FanOutFacts.fanout_failed_ran_in in Hfan as (rev & wa & wb & Hrev).
  pose proof Hrev as (b' & a' & rs1' & rs2' & Hperm' & _ & Hindex & _).
  exists repo, rev, w1, w2, wa, wb.
  split; [rewrite <- Hperm; set_solver|].
  split; [rewrite <- Hperm'; set_solver|].
  done.
Qed.

(** *** Idempotence and what a task leaves alone *)

(** X9 — a clone is not repeated.  Provided that a clone that succeeds
    leaves a directory that [stat] finds, a clone task that follows a clone
    task that returned nil starts no subprocess and returns nil, the world
    as it was. *)
Theorem ensureCloned_idempotent repo w w1 :
  (∀ d d' output,
     CombinedOutput "repos" "git" ["clone"; cloneURL repo] d = (d', (output, None)) →
     os_Stat d' (filepath_Join ["repos"; name repo]) = None) →
  ensureCloned repo w = (w1, None) →
  ensureCloned repo w1 = (w1, None).
Proof.
  intros Hclone Hfirst.
  destruct (os_Stat (disk w) (filepath_Join ["repos"; name repo])) as [e|] eqn:Hstat.
  - destruct (os_IsNotExist (Some e)) eqn:Hne.
    + rewrite ensureCloned_missing in Hfirst by (unfold dir_missing; by rewrite Hstat).
      unfold Orchestrator.runCommand in Hfirst. simpl in Hfirst.
      destruct (CombinedOutput "repos" "git" ["clone"; cloneURL repo] (disk w))
        as [d' [output [err|]]] eqn:Hco; [done|].
      injection Hfirst as <-. apply ensureCloned_exists. unfold dir_exists. simpl.
      by eapply Hclone.
    + by rewrite (ensureCloned_stat_error _ _ _ e Hstat Hne) in Hfirst.
  - rewrite ensureCloned_exists in Hfirst by done. injection Hfirst as <-.
    by apply ensureCloned_exists.
Qed.

Lemma runCommand_keeps p dir command args w :
  (∀ dir command args d,
     p ∈ entries d → p ∈ entries (CombinedOutput dir command args d).1) →
  p ∈ entries (disk w) →
  p ∈ entries (disk (runCommand dir command args w).1).
Proof.
  intros Hkeep Hin. unfold Orchestrator.runCommand. simpl.
  specialize (Hkeep dir command args (disk w) Hin).
  by destruct (CombinedOutput dir command args (disk w)) as [d [output [e|]]].
Qed.

Lemma run_commands_keeps p (cmds : list (string * string * list string)) w :
  (∀ dir command args d,
     p ∈ entries d → p ∈ entries (CombinedOutput dir command args d).1) →
  p ∈ entries (disk w) →
  p ∈ entries (disk (run_commands (map (λ c, runCommand c.1.1 c.1.2 c.2) cmds) w).1).
Proof.
  intros Hkeep. revert w. induction cmds as [|c cmds IH]; intros w Hin; [done|].
  simpl. pose proof (runCommand_keeps p c.1.1 c.1.2 c.2 w Hkeep Hin) as H1.
  destruct (runCommand c.1.1 c.1.2 c.2 w) as [w1 [e|]]; [done|]. by apply IH.
Qed.

(** An index task that gets its workspace, with the world it works in. *)
Lemma index_in_workspace owner name rev w indexFile tempDir :
  filepath_Abs (disk w) (indexFileName name rev) = inl indexFile →
  os_IsNotExist (os_Stat (disk w) indexFile) = true →
  TempDir_pick (disk w) = inl tempDir →
  ∃ w1,
    entries (disk w1) = {[ tempDir ]} ∪ entries (disk w) ∧
    index owner name rev w =
      (os_RemoveAll tempDir
         (run_commands (Orchestrator.index_commands CombinedOutput name rev tempDir
                          indexFile) w1).1,
       (run_commands (Orchestrator.index_commands CombinedOutput name rev tempDir
                        indexFile) w1).2).
Proof.
  intros Habs Hstat Htmp. unfold Orchestrator.index. rewrite Habs.
  destruct (os_Stat (disk w) indexFile) as [e|]; [|done]. cbv zeta.
  rewrite Hstat. cbn [is_nil orb negb]. unfold ioutil_TempDir. rewrite Htmp.
  match goal with
  | |- context [run_commands ?c ?x] =>
      exists x; split; [|by destruct (run_commands c x)]
  end.
  reflexivity.
Qed.

(** X10 — an index task deletes nothing outside its workspace.  A path
    that exists, that no subprocess removes and that is not at or below
    the directory the task gets as its workspace, still exists when the
    task returns, whatever the task's result. *)
Theorem index_keeps_other_files p owner name rev w :
  (∀ dir command args d,
     p ∈ entries d → p ∈ entries (CombinedOutput dir command args d).1) →
  (∀ tempDir, TempDir_pick (disk w) = inl tempDir → is_under tempDir p = false) →
  p ∈ entries (disk w) →
  p ∈ entries (disk (index owner name rev w).1).
Proof.
  intros Hkeep Hout Hin.
  destruct (filepath_Abs (disk w) (indexFileName name rev)) as [indexFile|err] eqn:Habs;
    last first.
  { unfold Orchestrator.index. by rewrite Habs. }
  destruct (os_IsNotExist (os_Stat (disk w) indexFile)) eqn:Hne; last first.
  { unfold Orchestrator.index. rewrite Habs. cbv zeta. rewrite Hne.
    by destruct (os_Stat (disk w) indexFile). }
  destruct (TempDir_pick (disk w)) as [tempDir|err] eqn:Htmp; last first.
  { unfold Orchestrator.index. rewrite Habs.
    destruct (os_Stat (disk w) indexFile) as [e|]; [|done]. cbv zeta.
    rewrite Hne. cbn [is_nil orb negb]. unfold ioutil_TempDir. by rewrite Htmp. }
  destruct (index_in_workspace owner name rev w indexFile tempDir Habs Hne Htmp)
    as (w1 & Hw1 & Hindex).
  rewrite Hindex, index_commands_eq. cbn [fst os_RemoveAll emit disk entries].
  apply elem_of_filter. split; [by apply Hout|].
  apply run_commands_keeps; [done|]. rewrite Hw1. apply elem_of_union. by right.
Qed.

End Tasks.

(** *** The artifact name as a cache key *)

Lemma list_ascii_app (a b : string) :
  String.list_ascii_of_string (a +:+ b)
  = String.list_ascii_of_string a ++ String.list_ascii_of_string b.
Proof. induction a as [|c a IH]; simpl; [done | by rewrite IH]. Qed.

Lemma list_ascii_inj (a b : string) :
  String.list_ascii_of_string a = String.list_ascii_of_string b → a = b.
Proof.
  intros H. rewrite <- (String.string_of_list_ascii_of_string a),
    <- (String.string_of_list_ascii_of_string b). by rewrite H.
Qed.

Lemma no_dot_not_elem (s : string) :
  no_dot s = true → ascii_of_nat 46 ∉ String.list_ascii_of_string s.
Proof.
  induction s as [|c s IH]; simpl; [by intros _ ?%elem_of_nil|].
  intros [Hc Hs]%andb_prop [<-|Hin]%elem_of_cons.
  - by rewrite bool_decide_eq_true_2 in Hc.
  - by apply IH.
Qed.

(** Two lists cut at their last occurrence of [x] are cut alike. *)
Lemma split_at_last {A : Type} (x : A) (l1 l2 r1 r2 : list A) :
  x ∉ r1 → x ∉ r2 → l1 ++ x :: r1 = l2 ++ x :: r2 → l1 = l2 ∧ r1 = r2.
Proof.
  intros H1 H2. revert l2. induction l1 as [|a l1 IH]; intros [|b l2]; simpl.
  - by intros [= ->].
  - intros [= Hb Hr]. destruct H1. rewrite Hr. apply elem_of_app. right. left.
  - intros [= Ha Hr]. destruct H2. rewrite <- Hr. apply elem_of_app. right. left.
  - intros [= Hab Heq]. destruct (IH l2 Heq) as [Hl Hr]. by rewrite Hab, Hl, Hr.
Qed.

(** *** Paths of plain elements *)

Lemma no_slash_app (a b : string) :
  no_slash (a +:+ b) = no_slash a && no_slash b.
Proof. induction a as [|c a IH]; simpl; [done|]. by rewrite IH, Bool.andb_assoc. Qed.

Lemma split_path_no_slash (s : string) : no_slash s = true → split_path s = [s].
Proof.
  induction s as [|c s IH]; simpl; [done|].
  intros [Hc Hs]%andb_prop. apply negb_true_iff in Hc. by rewrite Hc, (IH Hs).
Qed.

Lemma split_path_app (a b : string) :
  no_slash a = true → split_path (a +:+ "/" +:+ b) = a :: split_path b.
Proof.
  induction a as [|c a IH]; simpl; [done|].
  intros [Hc Ha]%andb_prop. apply negb_true_iff in Hc. by rewrite Hc, (IH Ha).
Qed.

Lemma clean_step_plain rooted out x : plain x → clean_step rooted out x = x :: out.
Proof.
  intros (_ & H1 & H2 & H3). unfold clean_step.
  rewrite decide_False by (by intros [?|?]). by rewrite decide_False.
Qed.

(** [filepath.Join] of two plain elements puts a separator between them. *)
Lemma filepath_Join_plain (a b : string) :
  plain a → plain b → filepath_Join [a; b] = a +:+ "/" +:+ b.
Proof.
  intros Ha Hb. pose proof Ha as (Hsa & Hna & _). pose proof Hb as (Hsb & _).
  cbn [filepath_Join strings_Join]. rewrite decide_False by done.
  unfold filepath_Clean.
  rewrite (split_path_app a b Hsa), (split_path_no_slash b Hsb).
  cbn [foldl]. rewrite !clean_step_plain by done.
  assert (filepath_IsAbs (a +:+ "/" +:+ b) = false) as ->.
  { destruct a as [|c a]; [done|]. simpl in Hsa.
    apply andb_prop in Hsa as [Hc _]. apply negb_true_iff in Hc.
    apply bool_decide_eq_false in Hc.
    unfold filepath_IsAbs.
    change (String c a +:+ "/" +:+ b) with (String c (a +:+ "/" +:+ b)).
    cbn [String.prefix]. by destruct (Ascii.ascii_dec "/" c) as [<-|_]. }
  cbv zeta. change (reverse [b; a]) with [a; b]. cbn [strings_Join].
  rewrite decide_False; [done|]. by destruct a.
Qed.

Lemma string_length_app (a b : string) :
  String.length (a +:+ b) = (String.length a + String.length b)%nat.
Proof. induction a as [|c a IH]; simpl; [done | by rewrite IH]. Qed.

(** The dump file of a name and a revision without separators is a plain
    element. *)
Lemma dump_name_plain (name rev : string) :
  no_slash name = true → no_slash rev = true →
  plain (name +:+ "." +:+ rev +:+ ".dump").
Proof.
  intros Hn Hr. split; [by rewrite !no_slash_app, Hn, Hr|].
  assert (2 < String.length (name +:+ "." +:+ rev +:+ ".dump"))%nat as Hlen.
  { rewrite !string_length_app. simpl. lia. }
  repeat split; intros Heq; rewrite Heq in Hlen; simpl in Hlen; lia.
Qed.

(** X11 — the artifact name tells name and revision apart.  For
    repository names and revisions that are single path elements (no
    separator in them) and revisions without a dot (commit hashes have
    neither), two index tasks that differ in the repository name or in the
    revision use different artifact files; the owner plays no part in the
    name. *)
Theorem indexFileName_injective name1 rev1 name2 rev2 :
  no_slash name1 = true → no_slash name2 = true →
  no_slash rev1 = true → no_slash rev2 = true →
  no_dot rev1 = true → no_dot rev2 = true →
  name1 ≠ name2 ∨ rev1 ≠ rev2 →
  indexFileName name1 rev1 ≠ indexFileName name2 rev2.
Proof.
  intros Hn1 Hn2 Hr1 Hr2 Hd1 Hd2 Hne Heq. unfold indexFileName in Heq.
  rewrite !filepath_Join_plain in Heq
    by first [by apply dump_name_plain | by repeat split].
  apply (f_equal String.list_ascii_of_string) in Heq.
  rewrite !list_ascii_app in Heq. simpl in Heq.
  injection Heq as Heq.
  rewrite !app_comm_cons, !(assoc_L (++)) in Heq.
  apply app_inv_tail in Heq.
  apply split_at_last in Heq as [Hn Hr]; [|by apply no_dot_not_elem..].
  apply list_ascii_inj in Hn, Hr. by destruct Hne.
Qed.

(** *** In the sample environments *)


Lemma successful_run_uploads_all_witness :
  ∃ evs,
    log (mainErr_seq quiet_CombinedOutput sample_TempDir_pick quiet_MkdirAll_err
           clean_world).1 = log clean_world ++ evs ∧
    ∀ repo rev, repo ∈ repos → rev ∈ revs repo →
      upload_exec (owner repo) (name repo) rev ∈ evs.
Proof.
  refine (successful_run_uploads_all quiet_CombinedOutput sample_TempDir_pick
            quiet_MkdirAll_err clean_world _ _).
  pose proof (mainErr_seq_run quiet_CombinedOutput sample_TempDir_pick
                quiet_MkdirAll_err clean_world) as Hrun.
  replace (mainErr_seq quiet_CombinedOutput sample_TempDir_pick quiet_MkdirAll_err
             clean_world).2 with (@None error) in Hrun by (vm_compute; reflexivity).
  exact Hrun.
Defined.

Lemma index_phase_error_source_witness :
  ∃ e repo rev wa wb,
    repo ∈ repos ∧ rev ∈ revs repo ∧
    Orchestrator.index sample_CombinedOutput sample_TempDir_pick (owner repo) (name repo)
      rev wa = (wb, Some e).
Proof.
  pose proof (ensureAllIndexed_seq_run sample_CombinedOutput sample_TempDir_pick
                sample_world) as Hrun.
  destruct (ensureAllIndexed_seq sample_CombinedOutput sample_TempDir_pick sample_world).2
    as [e|] eqn:He; [|vm_compute in He; discriminate].
  destruct (index_phase_error_source sample_CombinedOutput sample_TempDir_pick
              sample_world _ e Hrun)
    as (repo & rev & w1 & w2 & wa & wb & Hrepo & Hrev & _ & _ & Hindex).
  exists e, repo, rev, wa, wb.
  split; [exact Hrepo|]. split; [exact Hrev | exact Hindex].
Defined.

Lemma ensureCloned_idempotent_witness :
  Orchestrator.ensureCloned quiet_CombinedOutput zap
    (Orchestrator.ensureCloned quiet_CombinedOutput zap clean_world).1
  = ((Orchestrator.ensureCloned quiet_CombinedOutput zap clean_world).1, None).
Proof.
  refine (ensureCloned_idempotent quiet_CombinedOutput zap clean_world _ _ _).
  - intros d d' output [= <- _]. unfold os_Stat. simpl.
    rewrite lookup_delete_eq. by rewrite decide_True by set_solver.
  - vm_compute. reflexivity.
Defined.

Lemma index_keeps_other_files_witness :
  "repos/zap" ∈
    entries (disk (Orchestrator.index sample_CombinedOutput sample_TempDir_pick
                     "uber-go" "zap" "r2" sample_world).1).
Proof.
  refine (index_keeps_other_files sample_CombinedOutput sample_TempDir_pick
            "repos/zap" "uber-go" "zap" "r2" sample_world _ _ _).
  - intros dir command args d Hin. unfold sample_CombinedOutput.
    repeat case_decide; simpl; set_solver.
  - intros tempDir [= <-]. reflexivity.
  - vm_compute. set_solver.
Defined.

Lemma indexFileName_injective_witness :
  indexFileName "zap" "a6015e13fab9b744d96085308ce4e8f11bad1996"
  ≠ indexFileName "etcd" "dfb0a405096af39e694a501de5b0a46962b3050e".
Proof.
  refine (indexFileName_injective "zap" "a6015e13fab9b744d96085308ce4e8f11bad1996"
            "etcd" "dfb0a405096af39e694a501de5b0a46962b3050e" _ _ _ _ _ _ _);
    first [reflexivity | by left].
Defined.

End SchedulesFacts.

(** ** More on the bundle-manager client *)

Module TracesFacts.

Import Client Traces.

Lemma trace_emit e w : trace (emit e w) = trace w ++ [e].
Proof. reflexivity. Qed.

Lemma trace_write_file path content w : trace (write_file path content w) = trace w.
Proof. reflexivity. Qed.

Lemma trace_store target v w : trace (store target v w) = trace w.
Proof. reflexivity. Qed.

Lemma files_emit e w : files (emit e w) = files w.
Proof. reflexivity. Qed.

Lemma heap_emit e w : heap (emit e w) = heap w.
Proof. reflexivity. Qed.

Lemma files_store target v w : files (store target v w) = files w.
Proof. reflexivity. Qed.

Lemma heap_write_file path content w : heap (write_file path content w) = heap w.
Proof. reflexivity. Qed.

(** Case analysis on every answer of the environment in the goal. *)
Ltac split_cases :=
  repeat match goal with
    | |- context [match ?x with _ => _ end] =>
        lazymatch x with
        | match _ with _ => _ end => fail
        | _ => destruct x eqn:?
        end
    end;
  try solve [exfalso; simplify_eq/=].

(** The events a call has added, as one list after the trace it started from. *)
Ltac collect_trace :=
  cbn [fst snd];
  repeat first [rewrite trace_emit | rewrite trace_write_file | rewrite trace_store];
  rewrite <- ?(assoc_L (++)).

Section Operations.

Context {V : Type}.
Variable fmt_v : V → string.
Variable range_qs : gmap string V → list (string * V).
Variable range_keys : gmap string (list string) → list string.
Variable url_Parse : string → URL + error.
Variable url_String : URL → string.
Variable NewRequest_check : string → string → option error.
Variable uuid_NewRandom : string + error.
Variable os_Create_err : string → option error.
Variable io_Copy_fault : string → ReadCloser → option (nat * error).
Variable file_Close_err : string → option error.
Variable json_Decode : bytes → option bytes * option error.

Abbreviation run_op :=
  (Client.run_op fmt_v range_qs range_keys url_Parse url_String NewRequest_check
     uuid_NewRandom os_Create_err io_Copy_fault file_Close_err json_Decode).
Abbreviation op_url := (Client.op_url fmt_v range_qs range_keys url_Parse).
Abbreviation op_request := (Client.op_request url_String).
Abbreviation GetUpload :=
  (Client.GetUpload fmt_v range_qs range_keys url_Parse url_String NewRequest_check
     uuid_NewRandom os_Create_err io_Copy_fault file_Close_err).
Abbreviation queryBundle :=
  (Client.queryBundle fmt_v range_qs range_keys url_Parse url_String NewRequest_check
     json_Decode).

Ltac unfold_ops :=
  unfold Client.run_op, Client.SendUpload, Client.GetUpload, Client.SendDB,
    Client.queryBundle, Client.do, openRandomFile, io_Copy, StartSpanFromContext,
    finish_span.

(** X12 — no limiter slot is lost.  In the trace of any call of any of the
    four operations, whatever the environment answers, there are as many
    releases of the HTTP limiter as acquisitions; with a limiter, a slot
    is taken exactly when a request is sent, and at most one request is
    sent. *)
Theorem limiter_slot_released c ctx bundleID o w :
  ∃ evs,
    trace (run_op c ctx bundleID o w).1 = trace w ++ evs ∧
    occurrences is_acquire evs = occurrences is_release evs ∧
    (occurrences is_request evs ≤ 1)%nat ∧
    (is_Some (httpLimiter c) →
     occurrences is_acquire evs = occurrences is_request evs).
Proof.
  destruct o; unfold_ops; split_cases; collect_trace;
    (eexists; split; [reflexivity|]);
    repeat split;
    first [ reflexivity
          | unfold occurrences; simpl; lia
          | intros [? ?]; discriminate
          | intros _; reflexivity ].
Qed.

(** X13 — every call opens and finishes its span.  The events of any call
    start with the start of the operation's span and end with its finish;
    the span is finished exactly once, and it is marked as failed exactly
    when the call returns an error. *)
Theorem span_finished_once c ctx bundleID o w :
  ∃ evs,
    trace (run_op c ctx bundleID o w).1 = trace w ++ evs ∧
    head evs = Some (EvStartSpan (op_span o)) ∧
    last evs = Some (EvFinishSpan (op_span o)) ∧
    occurrences is_finish evs = 1%nat ∧
    occurrences is_set_error evs
      = (if is_nil (run_op c ctx bundleID o w).2.2 then 0 else 1)%nat.
Proof.
  destruct o; unfold_ops; split_cases; collect_trace;
    (eexists; split; [reflexivity|]); repeat split; reflexivity.
Qed.

Ltac use_response Hurl Hcheck Hresp :=
  unfold Client.op_url, Client.op_request, op_ctx in Hurl, Hresp;
  cbn [op_span op_method op_body] in Hurl, Hcheck, Hresp;
  unfold_ops; rewrite Hurl, Hcheck, Hresp.

(** X14 — a response body is closed exactly once.  Whenever the server
    has answered, whatever the status and whatever happens to the body
    afterwards (the file cannot be created, the copy or the decoding
    fails), the call closes the body of the response once, and closes
    nothing else. *)
Theorem body_closed_once c ctx bundleID o w u resp :
  op_url c bundleID o = inl u →
  NewRequest_check (op_method o) (url_String u) = None →
  httpClient c (op_request c ctx o u) = inl resp →
  ∃ evs,
    trace (run_op c ctx bundleID o w).1 = trace w ++ evs ∧
    filter (λ e, is_close e = true) evs = [EvBodyClose (body_id (Body resp))].
Proof.
  intros Hurl Hcheck Hresp.
  destruct o; use_response Hurl Hcheck Hresp; split_cases; collect_trace;
    (eexists; split; [reflexivity|]); reflexivity.
Qed.

(** X15 — without a request there is no effect.  When the URL cannot be
    parsed or the request cannot be built, the call returns that very
    error, sends nothing, takes no limiter slot and leaves the files and
    the query targets as they were. *)
Theorem nothing_sent_without_request c ctx bundleID o w e :
  op_url c bundleID o = inr e ∨
  (∃ u, op_url c bundleID o = inl u ∧
        NewRequest_check (op_method o) (url_String u) = Some e) →
  (run_op c ctx bundleID o w).2 = (EmptyString, Some e) ∧
  files (run_op c ctx bundleID o w).1 = files w ∧
  heap (run_op c ctx bundleID o w).1 = heap w ∧
  ∃ evs,
    trace (run_op c ctx bundleID o w).1 = trace w ++ evs ∧
    occurrences is_request evs = 0%nat ∧
    occurrences is_acquire evs = 0%nat.
Proof.
  intros [Hurl|(u & Hurl & Hcheck)];
    unfold Client.op_url in Hurl;
    destruct o; cbn [op_method] in *; unfold_ops; rewrite Hurl, ?Hcheck;
    (repeat split; [..|collect_trace; eexists; split; [reflexivity|]; by split]);
    reflexivity.
Qed.

(** X16 — a connection failure comes back unchanged.  When the HTTP client
    fails to get a response, the call returns the client's error as it
    is, closes no body, and leaves the files and the query targets as
    they were. *)
Theorem connection_error_is_returned c ctx bundleID o w u e :
  op_url c bundleID o = inl u →
  NewRequest_check (op_method o) (url_String u) = None →
  httpClient c (op_request c ctx o u) = inr e →
  (run_op c ctx bundleID o w).2 = (EmptyString, Some e) ∧
  files (run_op c ctx bundleID o w).1 = files w ∧
  heap (run_op c ctx bundleID o w).1 = heap w ∧
  ∃ evs,
    trace (run_op c ctx bundleID o w).1 = trace w ++ evs ∧
    occurrences is_close evs = 0%nat.
Proof.
  intros Hurl Hcheck Hresp.
  destruct o; use_response Hurl Hcheck Hresp; split_cases;
    (repeat split; [..|collect_trace; eexists; split; [reflexivity|]; reflexivity]);
    reflexivity.
Qed.

(** X17 — a download that goes through.  When the server answers 200, the
    file can be created and the copy does not fail, [GetUpload] returns
    the path of the file, the random name joined to the caller's
    directory, together with the result of closing the file; the file
    holds exactly the body of the response, and no other file has
    changed. *)
Theorem GetUpload_saves_body c ctx bundleID dir w u resp uuid :
  op_url c bundleID (OpGetUpload dir) = inl u →
  NewRequest_check "GET" (url_String u) = None →
  httpClient c (op_request c ctx (OpGetUpload (V := V) dir) u) = inl resp →
  StatusCode resp = http_StatusOK →
  uuid_NewRandom = inl uuid →
  os_Create_err (filepath_Join [dir; uuid]) = None →
  io_Copy_fault (filepath_Join [dir; uuid]) (Body resp) = None →
  (GetUpload c ctx bundleID dir w).2
    = (filepath_Join [dir; uuid], file_Close_err (filepath_Join [dir; uuid])) ∧
  files (GetUpload c ctx bundleID dir w).1
    = <[filepath_Join [dir; uuid] := body_data (Body resp)]> (files w).
Proof.
  intros Hurl Hcheck Hresp Hstatus Huuid Hcreate Hcopy.
  unfold Client.op_url, Client.op_request, op_ctx in Hurl, Hresp.
  cbn [op_span op_method op_body] in Hurl, Hresp.
  unfold_ops. rewrite Hurl, Hcheck, Hresp.
  destruct (decide (StatusCode resp ≠ http_StatusOK)) as [Hno|_]; [done|].
  cbv beta iota zeta. rewrite Huuid, Hcreate. cbv beta iota zeta. rewrite Hcopy.
  split_cases; cbn [fst snd]; (split; [reflexivity|]);
    cbn [files emit write_file]; by rewrite insert_insert_eq.
Qed.



(** X20 — the request a call sends.  A call sends no request or exactly
    one, and that one has the method of the operation (POST to send, GET
    to fetch and to query), the URL that [makeURL] built, the reader the
    caller passed as its body, the JSON content type and the client's user
    agent as headers, and the deadline of the caller's context. *)
Theorem request_shape c ctx bundleID o w :
  (∃ evs,
     trace (run_op c ctx bundleID o w).1 = trace w ++ evs ∧
     (filter (λ e, is_request e = true) evs = [] ∨
      ∃ u, op_url c bundleID o = inl u ∧
           filter (λ e, is_request e = true) evs = [EvDo (op_request c ctx o u)])) ∧
  ∀ u,
    Method (op_request c ctx o u) = op_method o ∧
    ReqURL (op_request c ctx o u) = url_String u ∧
    ReqBody (op_request c ctx o u) = op_body o ∧
    Header (op_request c ctx o u)
      = [("Content-Type", "application/json"); ("User-Agent", userAgent c)] ∧
    deadline (ReqCtx (op_request c ctx o u)) = deadline ctx.
Proof.
  split; [|done].
  unfold Client.op_url, Client.op_request, op_ctx.
  destruct o; cbn [op_span op_method op_body]; unfold_ops; split_cases; collect_trace;
    (eexists; split; [reflexivity|]);
    first [ by left | right; by eexists ].
Qed.

End Operations.

(** *** In the sample environment *)

Lemma body_closed_once_witness :
  ∃ evs,
    trace (sample_run_op 200 (OpGetUpload "/tmp")).1 = trace empty_world ++ evs ∧
    filter (λ e, is_close e = true) evs = [EvBodyClose 1].
Proof.
  exact (body_closed_once id forward_range forward_keys sample_Parse
           sample_url_String sample_check sample_uuid sample_Create sample_Copy_fault
           sample_Close sample_Decode
           (sample_client 200) sample_ctx 42 (OpGetUpload "/tmp") empty_world
           sample_upload_url (sample_response 200) eq_refl eq_refl eq_refl).
Defined.

Lemma nothing_sent_without_request_witness :
  (Client.run_op id forward_range forward_keys sample_Parse sample_url_String
     refusing_check sample_uuid sample_Create sample_Copy_fault sample_Close
     sample_Decode (sample_client 200) sample_ctx 42 (OpSendUpload "dump")
     empty_world).2
  = (EmptyString, Some (ErrorString "net/http: invalid method")).
Proof.
  refine (proj1 (nothing_sent_without_request id forward_range forward_keys sample_Parse
                   sample_url_String refusing_check sample_uuid sample_Create
                   sample_Copy_fault sample_Close sample_Decode
                   (sample_client 200) sample_ctx 42 (OpSendUpload "dump") empty_world
                   (ErrorString "net/http: invalid method") _)).
  right. exists sample_upload_url. split; vm_compute; reflexivity.
Defined.

Lemma connection_error_is_returned_witness :
  (Client.run_op id forward_range forward_keys sample_Parse sample_url_String
     sample_check sample_uuid sample_Create sample_Copy_fault sample_Close
     sample_Decode unreachable_client sample_ctx 42 (OpGetUpload "/tmp")
     empty_world).2
  = (EmptyString, Some (ErrorString "connection refused")).
Proof.
  exact (proj1 (connection_error_is_returned id forward_range forward_keys sample_Parse
                  sample_url_String sample_check sample_uuid sample_Create
                  sample_Copy_fault sample_Close sample_Decode
                  unreachable_client sample_ctx 42 (OpGetUpload "/tmp") empty_world
                  sample_upload_url (ErrorString "connection refused")
                  eq_refl eq_refl eq_refl)).
Defined.

(** The caller's directory ends in a separator: the path returned is the
    cleaned one. *)
Lemma GetUpload_saves_body_witness :
  (Client.GetUpload id forward_range forward_keys sample_Parse sample_url_String
     sample_check sample_uuid sample_Create no_Copy_fault sample_Close
     (sample_client 200) sample_ctx 42 "/tmp/" empty_world).2
  = ("/tmp/5f2b4c1e", None) ∧
  files (Client.GetUpload id forward_range forward_keys sample_Parse sample_url_String
           sample_check sample_uuid sample_Create no_Copy_fault sample_Close
           (sample_client 200) sample_ctx 42 "/tmp/" empty_world).1
  = <[ "/tmp/5f2b4c1e" := "lsif dump of zap" ]> ∅.
Proof.
  exact (GetUpload_saves_body id forward_range forward_keys sample_Parse
           sample_url_String sample_check sample_uuid sample_Create no_Copy_fault
           sample_Close (sample_client 200) sample_ctx 42 "/tmp/" empty_world
           sample_upload_url (sample_response 200) "5f2b4c1e"
           eq_refl eq_refl eq_refl eq_refl eq_refl eq_refl eq_refl).
Defined.

End TracesFacts.

(** ** Query strings of the client's URLs *)

Module QueryStringFacts.

Import Client Traces.

Lemma count_char_app c s1 s2 :
  count_char c (s1 +:+ s2) = (count_char c s1 + count_char c s2)%nat.
Proof. induction s1 as [|c' s1 IH]; simpl; [done|]. rewrite IH. lia. Qed.

Lemma upperhex_no_separator n :
  upperhex n ≠ "&"%char ∧ upperhex n ≠ "="%char.
Proof.
  do 16 (destruct n as [|n]; [by vm_compute|]).
  by vm_compute.
Qed.

Lemma kept_no_separator c :
  shouldEscape c = false → c ≠ "&"%char ∧ c ≠ "="%char.
Proof. intros Hc. split; intros ->; by vm_compute in Hc. Qed.

Lemma count_char_skip c c' s :
  c' ≠ c → count_char c (String c' s) = count_char c s.
Proof. intros Hne. simpl. by rewrite bool_decide_eq_false_2. Qed.

(** An escaped string holds neither separator. *)
Lemma QueryEscape_no_separator s :
  count_char "&" (QueryEscape s) = 0%nat ∧ count_char "=" (QueryEscape s) = 0%nat.
Proof.
  induction s as [|c s [IH1 IH2]]; [done|].
  cbn [QueryEscape]. cbv zeta.
  destruct (shouldEscape c) eqn:Hc.
  - case_bool_decide.
    + split; by rewrite count_char_skip by (by vm_compute).
    + destruct (upperhex_no_separator (nat_of_ascii c / 16)) as [? ?].
      destruct (upperhex_no_separator (nat_of_ascii c mod 16)) as [? ?].
      split; by rewrite !count_char_skip by first [assumption | by vm_compute].
  - destruct (kept_no_separator c Hc) as [? ?].
    split; by rewrite count_char_skip by assumption.
Qed.

Lemma Encode_pair buf n k x :
  holds_pairs buf n →
  holds_pairs ((if decide (buf = EmptyString) then buf else buf +:+ "&")
                 +:+ QueryEscape k +:+ "=" +:+ QueryEscape x) (S n).
Proof.
  intros (Heq & Hamp & Hempty).
  destruct (QueryEscape_no_separator k) as [Hk1 Hk2].
  destruct (QueryEscape_no_separator x) as [Hx1 Hx2].
  assert (count_char "=" ((if decide (buf = EmptyString) then buf else buf +:+ "&")
                 +:+ QueryEscape k +:+ "=" +:+ QueryEscape x) = S n) as Hcount.
  { rewrite !count_char_app, Hk2, Hx2.
    destruct (decide (buf = EmptyString)); rewrite ?count_char_app, Heq; simpl; lia. }
  split; [done|]. split.
  - rewrite !count_char_app, Hk1, Hx1.
    destruct (decide (buf = EmptyString)) as [Hb|Hb].
    + apply Hempty in Hb. rewrite Hamp, Hb. simpl. lia.
    + rewrite count_char_app, Hamp. simpl.
      assert (n ≠ 0%nat) by (intros Hn; by apply Hb, Hempty). lia.
  - split; [|done]. intros Hnil. rewrite Hnil in Hcount. done.
Qed.

Lemma Encode_pairs (v : gmap string (list string)) keys buf n :
  Forall (λ k, ∃ x, v !! k = Some [x]) keys →
  holds_pairs buf n →
  holds_pairs
    (foldl (λ buf k,
              let vs := default [] (v !! k) in
              let keyEscaped := QueryEscape k in
              foldl (λ buf x,
                       (if decide (buf = EmptyString) then buf else buf +:+ "&")
                       +:+ keyEscaped +:+ "=" +:+ QueryEscape x)
                    buf vs)
           buf keys)
    (n + length keys).
Proof.
  intros Hkeys. revert buf n.
  induction Hkeys as [|k keys [x Hx] _ IH]; intros buf n Hbuf.
  - simpl. by rewrite Nat.add_0_r.
  - cbn [foldl length]. rewrite Hx. cbn [default foldl]. cbv zeta.
    replace (n + S (length keys))%nat with (S n + length keys)%nat by lia.
    apply IH. by apply Encode_pair.
Qed.

Section Separators.

Context {V : Type}.
Variable fmt_v : V → string.
Variable url_Parse : string → URL + error.

(** X21 — the separators of a query string.  Whatever characters the
    keys and the rendered values of the query parameters contain, the
    query string [makeURL] builds has exactly one [=] per parameter and
    exactly one [&] between two parameters, and it is empty exactly when
    there is no parameter: no key and no value can add a pair of its own. *)
Theorem query_string_separators range_qs range_keys baseURL path (qs : gmap string V) u :
  visits_all range_qs → visits_all_keys range_keys →
  makeURL fmt_v range_qs range_keys url_Parse baseURL path qs = inl u →
  count_char "=" (RawQuery u) = size qs ∧
  count_char "&" (RawQuery u) = pred (size qs) ∧
  (RawQuery u = EmptyString ↔ qs = ∅).
Proof.
  intros Hqs Hkeys. unfold makeURL.
  rewrite (ClientFacts.values_of_range fmt_v qs (range_qs qs) (Hqs qs)).
  destruct (url_Parse _) as [u0|]; [|done]. intros [= <-].
  cbn [RawQuery with_RawQuery]. unfold Values_Encode. cbv zeta.
  set (v := (λ x, [fmt_v x]) <$> qs).
  assert (merge_sort String.le (range_keys v) ≡ₚ (map_to_list v).*1) as Hperm.
  { by rewrite merge_sort_Permutation, (Hkeys v). }
  assert (length (merge_sort String.le (range_keys v)) = size qs) as Hlen.
  { rewrite Hperm, length_fmap, length_map_to_list. unfold v. apply map_size_fmap. }
  assert (Forall (λ k, ∃ x, v !! k = Some [x]) (merge_sort String.le (range_keys v)))
    as Hall.
  { apply Forall_forall. intros k Hk. rewrite Hperm in Hk.
    apply list_elem_of_fmap in Hk as ([k' l] & -> & Hk).
    apply elem_of_map_to_list in Hk. simpl. unfold v in Hk |- *.
    rewrite lookup_fmap in Hk |- *.
    destruct (qs !! k') as [x|]; [|done]. by exists (fmt_v x). }
  pose proof (Encode_pairs v _ EmptyString 0%nat Hall) as Hpairs.
  rewrite Hlen in Hpairs. simpl in Hpairs.
  destruct Hpairs as (H1 & H2 & H3); [by repeat split|].
  repeat split; [done | done | |].
  - intros Hnil. apply H3 in Hnil. by apply map_size_empty_inv.
  - intros ->. apply H3. apply map_size_empty.
Qed.

End Separators.

Lemma query_string_separators_witness :
  count_char "=" "line=10&path=cmd%2Fa+b.go&q=x%26y%3Dz" = size sample_qs ∧
  count_char "&" "line=10&path=cmd%2Fa+b.go&q=x%26y%3Dz" = pred (size sample_qs).
Proof.
  pose proof (query_string_separators id sample_Parse backward_range backward_keys
                "http://bundles:3187" "dbs/42/references" sample_qs
                {| Scheme := "http"; Host := "bundles:3187";
                   Path := "http://bundles:3187/dbs/42/references";
                   RawQuery := "line=10&path=cmd%2Fa+b.go&q=x%26y%3Dz";
                   Fragment := EmptyString |}
                (λ m, reverse_Permutation _) (λ m, reverse_Permutation _)) as H.
  refine (let '(conj H1 (conj H2 _)) := H _ in conj H1 H2).
  vm_compute. reflexivity.
Defined.

End QueryStringFacts.

(** ** Sessions of the observed client *)

Module SessionsFacts.

Import Client Observed Sessions.

Lemma metric_observe κ κ' secs count err m :
  metric κ' (observe κ secs count err m)
  = if decide (κ' = κ) then Observe (metric κ m) secs count err else metric κ' m.
Proof. by destruct κ, κ'. Qed.

Lemma metrics_log msg err t : metrics (log msg err t) = metrics t.
Proof. by destruct err. Qed.

Lemma traces_log msg err t : traces (log msg err t) = traces t.
Proof. by destruct err. Qed.

Section Calls.

Context {S V : Type}.
Variable clock : S → Z.
Variable b : ClientBase (S := S) (V := V).

(** One call through the decorator: the call on the wrapped client, and
    the deferred function on the telemetry. *)
Lemma call_observed_eq (k : Call) s t :
  call_observed clock (NewObservedClient b) k (s, t)
  = (((call_base b k s).1,
      observed_defer (family (kind k)) (message (kind k)) (observe (kind k))
        (clock s) (clock (call_base b k s).1) (call_base b k s).2.2
        (trace_event (TrNew (family (kind k))) t)),
     (call_base b k s).2).
Proof.
  destruct k; simpl;
    unfold SendUpload, GetUpload, SendDB, QueryBundle, tracer_New, forwarded_ctx; simpl.
  - by destruct (base_SendUpload b _ _ _ _).
  - by destruct (base_GetUpload b _ _ _ _) as [? [? ?]].
  - by destruct (base_SendDB b _ _ _ _).
  - by destruct (base_QueryBundle b _ _ _ _ _ _).
Qed.

Lemma session_observed_cons (k : Call) ks s t :
  session_observed clock (NewObservedClient b) (k :: ks) (s, t)
  = ((session_observed clock (NewObservedClient b) ks
        (call_observed clock (NewObservedClient b) k (s, t)).1).1,
     (call_observed clock (NewObservedClient b) k (s, t)).2
       :: (session_observed clock (NewObservedClient b) ks
             (call_observed clock (NewObservedClient b) k (s, t)).1).2).
Proof.
  cbn [session_observed].
  destruct (call_observed _ _ _ _) as [st r]. cbn [fst snd].
  by destruct (session_observed _ _ _ _).
Qed.



(** X23 — the metrics of a session.  After any sequence of calls, the
    registered metrics of an operation have counted every call of that
    operation once, observed one duration per call, and counted one error
    for every call of that operation that returned an error; calls of the
    other operations leave them alone. *)
Theorem session_metrics (κ : Kind) (ks : list Call) s t m :
  metric κ (metrics t) = Some m →
  ∃ m',
    metric κ (metrics (session_observed clock (NewObservedClient b) ks (s, t)).1.2) = Some m' ∧
    Count m' = Count m + Z.of_nat (calls_of κ ks) ∧
    length (Duration m') = (length (Duration m) + calls_of κ ks)%nat ∧
    Errors m' = Errors m +
      Z.of_nat (failures_of κ ks (session_observed clock (NewObservedClient b) ks (s, t)).2).
Proof.
  revert s t m. induction ks as [|k ks IH]; intros s t m Hm.
  - exists m. unfold calls_of, failures_of. simpl. rewrite Nat.add_0_r. by rewrite !Z.add_0_r.
  - rewrite session_observed_cons, call_observed_eq. cbn [fst snd].
    set (s' := (call_base b k s).1). set (r := (call_base b k s).2).
    set (t' := observed_defer _ _ _ _ _ _ _).
    assert (∃ m1, metric κ (metrics t') = Some m1 ∧
              Count m1 = Count m + (if decide (kind k = κ) then 1 else 0) ∧
              length (Duration m1)
                = (length (Duration m) + (if decide (kind k = κ) then 1 else 0))%nat ∧
              Errors m1 = Errors m +
                (if decide (kind k = κ ∧ is_nil r.2 = false) then 1 else 0))
      as (m1 & Hm1 & Hc1 & Hd1 & He1).
    { unfold t', observed_defer. cbv zeta. cbn [metrics trace_event].
      rewrite metrics_log. cbn [metrics with_metrics trace_event].
      rewrite metric_observe.
      destruct (decide (κ = kind k)) as [->|Hne].
      - rewrite Hm. eexists. split; [reflexivity|]. cbn [Count Duration Errors].
        rewrite length_app. simpl.
        destruct (decide (kind k = kind k)) as [_|?]; [|done].
        split; [done|]. split; [done|].
        destruct (is_nil r.2) eqn:Hnil.
        + rewrite decide_False by (intros [_ ?]; done). lia.
        + by rewrite decide_True by done.
      - exists m. rewrite Hm.
        destruct (decide (kind k = κ)) as [?|_]; [done|].
        rewrite decide_False by (intros [? _]; done).
        repeat split; lia. }
    destruct (IH s' t' m1 Hm1) as (m' & Hm' & Hc & Hd & He).
    exists m'. split; [done|].
    unfold calls_of, failures_of in *. cbn [zip zip_with].
    rewrite !filter_cons. cbn [fst snd].
    rewrite Hc, Hd, He, Hc1, Hd1, He1.
    destruct (decide (kind k = κ)) as [Hk|Hk].
    + destruct (decide (kind k = κ ∧ is_nil r.2 = false)); simpl;
        (split; [lia|]; split; lia).
    + destruct (decide (kind k = κ ∧ is_nil r.2 = false)) as [[? _]|_]; [done|].
      simpl. split; [lia|]; split; lia.
Qed.

(** X24 — the log and the traces of a session.  After any sequence of
    calls, the logger has been called once for every call that returned
    an error, in the order of the calls, with the message of the
    operation and the error under the key "error", and not at all for
    the calls that succeeded; the tracer has seen, for every call in
    turn, a trace of the operation's family opened, told the result and
    finished. *)
Theorem session_log_and_traces (ks : list Call) s t :
  let st := session_observed clock (NewObservedClient b) ks (s, t) in
  logged st.1.2 = logged t ++ (zip ks st.2 ≫= call_logged) ∧
  traces st.1.2 = traces t ++ (zip ks st.2 ≫= call_traces).
Proof.
  cbv zeta. revert s t. induction ks as [|k ks IH]; intros s t.
  - simpl. by rewrite !(right_id_L [] (++)).
  - rewrite session_observed_cons, call_observed_eq. cbn [fst snd].
    set (s' := (call_base b k s).1). set (r := (call_base b k s).2).
    destruct (IH s' (observed_defer (family (kind k)) (message (kind k)) (observe (kind k))
                       (clock s) (clock s') r.2
                       (trace_event (TrNew (family (kind k))) t))) as [-> ->].
    cbn [zip zip_with]. rewrite !bind_cons.
    unfold observed_defer. cbv zeta. cbn [logged traces trace_event].
    rewrite traces_log. cbn [logged traces with_metrics trace_event].
    unfold call_logged, call_traces. cbn [fst snd].
    split.
    + destruct r.2; simpl; by rewrite <- ?(assoc_L (++)).
    + by rewrite <- !(assoc_L (++)).
Qed.

End Calls.

Lemma session_metrics_witness :
  ∃ m',
    metric KSendDB
      (metrics (session_observed sample_clock (NewObservedClient sample_base) sample_calls
                  ([], fresh_telemetry)).1.2) = Some m' ∧
    Count m' = 2 ∧ length (Duration m') = 2%nat ∧ Errors m' = 2.
Proof.
  exact (session_metrics sample_clock sample_base KSendDB sample_calls []
           fresh_telemetry zero_metrics eq_refl).
Defined.

End SessionsFacts.
